(** * The event hub of relay/nakama/events.go

    A shallow embedding of [EventHub] (its registry of subscriber channels,
    its shutdown latch and its dispatch loop) and of [createEventHub],
    followed by the properties of the hub that the specification states.

    The hub is a concurrent object.  The embedding is sequential: every
    hub call is one atomic state transformer on the process state, and the
    goroutines that call the hub while [Dispatch] runs are represented by a
    schedule that lists their calls, and the frames the upstream connection
    delivers, in the order in which they take effect.  Subscribers are
    taken to be receiving, so a send on an open channel completes and is
    recorded in the channel. *)

From stdpp Require Import gmap strings list fin_maps.

Set Warnings "-register-all".

(** ** Go values *)

(** The values of Go's [error] interface that occur around the hub.  Only
    [*net.DNSError] carries its address: it is the one type whose values are
    compared by pointer (in [errors.Is], see [errors_Is_DNSError]). *)
Inductive error : Type :=
  | errorString (s : string)              (* errors.New(s) *)
  | runtimeError (s : string)             (* a run-time panic of the Go runtime *)
  | netError (s : string)                 (* a transport error without structure *)
  | DNSError (addr : nat) (name : string) (* a *net.DNSError allocated at addr *)
  | OpError (Op Net : string) (Err : error) (* a *net.OpError wrapping Err *)
  | joinError (errs : list error).        (* the result of errors.Join *)

(** [errors.Join]: nil values are discarded, the result is nil when every
    value is nil, and otherwise wraps the remaining errors in order. *)
Definition errors_Join (errs : list (option error)) : option error :=
  match omap id errs with
  | [] => None
  | es => Some (joinError es)
  end.

(** The [Error] method. *)
Fixpoint Error (e : error) : string :=
  match e with
  | errorString s | runtimeError s | netError s => s
  | DNSError _ name => "lookup " +:+ name +:+ ": no such host"
  | OpError Op Net Err => Op +:+ " " +:+ Net +:+ ": " +:+ Error Err
  | joinError errs => String.concat (String (Ascii.ascii_of_nat 10) "") (map Error errs)
  end.

(** [errors.Is(err, target)] for a [target] that is a [*net.DNSError] at
    address [target].  [errors.Is] walks the tree of [err] (through
    [Unwrap() error] and [Unwrap() []error]) and reports a match when an
    error of the tree is equal to the target or has a method [Is(error)
    bool] that accepts it.  None of the types here declares an [Is]
    method, and an interface value equals a pointer of type
    [*net.DNSError] only when it holds the same pointer. *)
Fixpoint errors_Is_DNSError (err : error) (target : nat) : bool :=
  match err with
  | DNSError addr _ => Nat.eqb addr target
  | OpError _ _ Err => errors_Is_DNSError Err target
  | joinError errs => existsb (fun e => errors_Is_DNSError e target) errs
  | errorString _ | runtimeError _ | netError _ => false
  end.

(** [type Event struct { message string }] *)
Record Event : Type := mkEvent { message : string }.

(** A value of type [chan *Event] is the index of a channel in the process's
    channel store; an index outside the store stands for the nil channel. *)
Record chan : Type := mkChan {
  closed : bool;            (* close(c) was executed *)
  delivered : list Event    (* the events sent on c, oldest first *)
}.

(** What the untyped [sync.Map] of the hub may hold under a key: a
    [chan *Event], or a value of another dynamic type. *)
Inductive any : Type :=
  | chanEvent (c : nat)
  | notChan (tag : nat).

(** One return of [ReadMessage]: [(messageType int, p []byte, err error)]. *)
Record frame : Type := mkFrame {
  messageType : Z;
  payload : string;
  readErr : option error
}.

(** [websocket.TextMessage] *)
Definition TextMessage : Z := 1.

(** The upstream [*websocket.Conn], as far as the hub uses it: what its
    [Close] method returns. *)
Record Conn : Type := mkConn {
  closeErr : option error
}.

(** What the hub does to the objects around it, and to its registry. *)
Inductive effect : Type :=
  | DidRead (f : frame)                 (* inputConnection.ReadMessage() returned f *)
  | DidClose                            (* inputConnection.Close() *)
  | DidLog (line : string)              (* log.Info(line) *)
  | DidSend (c : nat) (e : Event)       (* c <- e *)
  | DidCloseChan (c : nat)              (* close(c) *)
  | DidStore (key : string) (v : any)   (* channels.Store(key, v) *)
  | DidDelete (key : string).           (* channels.Delete(key) *)

(** [type EventHub struct] *)
Record EventHub : Type := mkEventHub {
  inputConnection : Conn;
  channels : gmap string any;
  didShutdown : bool
}.

(** The state of the process: the hub, the channels allocated so far, and
    the effects performed so far, oldest first. *)
Record Process : Type := mkProcess {
  hub : EventHub;
  chans : list chan;
  trace : list effect
}.

Definition set_hub (f : EventHub → EventHub) (σ : Process) : Process :=
  mkProcess (f (hub σ)) (chans σ) (trace σ).

Definition set_chans (f : list chan → list chan) (σ : Process) : Process :=
  mkProcess (hub σ) (f (chans σ)) (trace σ).

Definition emit (e : effect) (σ : Process) : Process :=
  mkProcess (hub σ) (chans σ) (trace σ ++ [e]).

Definition set_channels (f : gmap string any → gmap string any)
    (eh : EventHub) : EventHub :=
  mkEventHub (inputConnection eh) (f (channels eh)) (didShutdown eh).

Definition set_didShutdown (b : bool) (eh : EventHub) : EventHub :=
  mkEventHub (inputConnection eh) (channels eh) b.

(** ** Computations of the process *)

(** A call returns a value, panics with a value, or never returns because
    it waits for something that does not come. *)
Inductive result (A : Type) : Type :=
  | Returned (a : A) (σ : Process)
  | Panicked (e : error) (σ : Process)
  | Blocked (σ : Process).
Arguments Returned {A} a σ.
Arguments Panicked {A} e σ.
Arguments Blocked {A} σ.

Definition M (A : Type) : Type := Process → result A.

Definition ret {A} (a : A) : M A := fun σ => Returned a σ.

Definition bind {A B} (m : M A) (k : A → M B) : M B :=
  fun σ =>
    match m σ with
    | Returned a σ' => k a σ'
    | Panicked e σ' => Panicked e σ'
    | Blocked σ' => Blocked σ'
    end.

Definition panic {A} (e : error) : M A := fun σ => Panicked e σ.

#[global] Instance M_ret : MRet M := @ret.
#[global] Instance M_bind : MBind M := fun A B k m => bind m k.

Definition final_state {A} (r : result A) : Process :=
  match r with
  | Returned _ σ | Panicked _ σ | Blocked σ => σ
  end.

(** ** Channels *)

(** [make(chan *Event)] *)
Definition make_chan : M nat := fun σ =>
  Returned (length (chans σ)) (set_chans (fun cs => cs ++ [mkChan false []]) σ).

(** [close(c)]: closing the nil channel or a closed channel panics. *)
Definition close (c : nat) : M unit := fun σ =>
  match chans σ !! c with
  | None => Panicked (runtimeError "close of nil channel") σ
  | Some ch =>
      if closed ch then Panicked (runtimeError "close of closed channel") σ
      else Returned tt
             (emit (DidCloseChan c)
                (set_chans (fun cs => <[c := mkChan true (delivered ch)]> cs) σ))
  end.

(** [c <- e]: a send on the nil channel blocks forever, a send on a closed
    channel panics, and a send on an open channel hands [e] to the
    receiver. *)
Definition send (c : nat) (e : Event) : M unit := fun σ =>
  match chans σ !! c with
  | None => Blocked σ
  | Some ch =>
      if closed ch then Panicked (runtimeError "send on closed channel") σ
      else Returned tt
             (emit (DidSend c e)
                (set_chans (fun cs => <[c := mkChan false (delivered ch ++ [e])]> cs) σ))
  end.

(** ** The registry: the three [sync.Map] methods the hub calls *)

Definition Store (key : string) (value : any) : M unit := fun σ =>
  Returned tt
    (emit (DidStore key value) (set_hub (set_channels (fun m => <[key := value]> m)) σ)).

Definition Load (key : string) : M (option any) := fun σ =>
  Returned (channels (hub σ) !! key) σ.

Definition Delete (key : string) : M unit := fun σ =>
  Returned tt
    (emit (DidDelete key) (set_hub (set_channels (fun m => delete key m)) σ)).

(** ** Subscribe, Unsubscribe, Shutdown *)

Definition Subscribe (session : string) : M nat :=
  channel ← make_chan;
  Store session (chanEvent channel);;
  mret channel.

Definition Unsubscribe (session : string) : M unit :=
  eventChannelUntyped ← Load session;
  match eventChannelUntyped with
  | None => panic (errorString "session not found")
  | Some (chanEvent eventChannel) =>
      close eventChannel;;
      Delete session
  | Some (notChan _) =>
      panic (errorString "found object that was not a event channel in event hub")
  end.

Definition Shutdown : M unit := fun σ =>
  Returned tt (set_hub (set_didShutdown true) σ).

(** ** Dispatch *)

(** [sync.Map.Range] visits the entries of the map in an order that Go
    leaves open.  An order is any enumeration of the entries. *)
Class RangeOrder : Type := {
  range_order : gmap string any → list (string * any);
  range_order_perm : ∀ m, range_order m ≡ₚ map_to_list m
}.

(** [m.Range(f)]: [f] is called on the entries in turn until it returns
    false.  [L] is the type of the variables that the closure [f] captures
    and assigns. *)
Fixpoint Range_from {L : Type} (f : string → any → L → M (bool * L))
    (entries : list (string * any)) (l : L) : M L :=
  match entries with
  | [] => mret l
  | (key, value) :: entries' =>
      '(continue, l') ← f key value l;
      if continue : bool then Range_from f entries' l' else mret l'
  end.

Definition Range `{RangeOrder} {L : Type}
    (f : string → any → L → M (bool * L)) (l : L) : M L :=
  fun σ => Range_from f (range_order (channels (hub σ))) l σ.

Definition ReadMessage (f : frame) : M frame := fun σ =>
  Returned f (emit (DidRead f) σ).

Definition Close : M (option error) := fun σ =>
  Returned (closeErr (inputConnection (hub σ))) (emit DidClose σ).

Definition Info (line : string) : M unit := fun σ =>
  Returned tt (emit (DidLog line) σ).

(** A call of the hub made by another goroutine. *)
Inductive call : Type :=
  | CallSubscribe (session : string)
  | CallUnsubscribe (session : string)
  | CallShutdown.

Definition run_call (c : call) : M unit :=
  match c with
  | CallSubscribe session => Subscribe session;; mret tt
  | CallUnsubscribe session => Unsubscribe session
  | CallShutdown => Shutdown
  end.

(** What happens next while [Dispatch] is in its loop: the connection
    delivers a frame, or another goroutine completes a call of the hub.  A
    call stands in the schedule before the frame whose iteration is the
    first to see its effect; a call of [Shutdown] made while the loop waits
    in [ReadMessage] therefore stands after the frame that this read
    returns. *)
Inductive tick : Type :=
  | Recv (f : frame)
  | Call (c : call).

(** The closure of lines 87 to 96.  The variable [err] it assigns is the
    one declared by [:=] on line 78, in the body of the loop. *)
Definition deliver (message : string)
    (key : string) (value : any) (err : option error) : M (bool * option error) :=
  match value with
  | chanEvent channel =>
      send channel (mkEvent message);;
      mret (true, err)
  | notChan _ =>
      let err := Some (errorString "not a channel") in
      Shutdown;;
      mret (false, err)
  end.

(** The body of the loop, lines 78 to 100, when [ReadMessage] returns [f].
    Every path ends the iteration; [messageType], [message] and [err] are
    local to it. *)
Definition iteration `{RangeOrder} (f : frame) : M unit :=
  r ← ReadMessage f;
  let err := readErr r in
  match err with
  | Some _ => Shutdown
  | None =>
      if bool_decide (messageType r ≠ TextMessage) then Shutdown
      else
        err ← Range (deliver (payload r)) err;
        match err with
        | Some _ => Shutdown
        | None => mret tt
        end
  end.

(** [for !eh.didShutdown.Load() { ... }] against a schedule.  With the
    flag set the loop is left, whatever is left of the schedule.  With the
    flag clear the next tick takes effect: a call of another goroutine, or
    an iteration on the frame that [ReadMessage] returns.  With the
    schedule exhausted the read never returns. *)
Fixpoint Dispatch_loop `{RangeOrder} (sched : list tick) : M unit := fun σ =>
  if didShutdown (hub σ) then Returned tt σ
  else
    match sched with
    | [] => Blocked σ
    | Call c :: sched' => (run_call c;; Dispatch_loop sched') σ
    | Recv f :: sched' => (iteration f;; Dispatch_loop sched') σ
    end.

(** [fmt.Sprintf("shutting down: %s", key)] *)
Definition shutting_down (key : string) : string := "shutting down: " +:+ key.

(** The closure of lines 102 to 106. *)
Definition drain (key : string) (_ : any) (_ : unit) : M (bool * unit) :=
  Info (shutting_down key);;
  Unsubscribe key;;
  mret (true, tt).

(** [Dispatch].  The [err] declared on line 76 is assigned on line 107
    only: the loop body declares its own. *)
Definition Dispatch `{RangeOrder} (sched : list tick) : M (option error) :=
  let err : option error := None in
  Dispatch_loop sched;;
  Range drain tt;;
  closing ← Close;
  let err := errors_Join [closing; err] in
  mret err.

(** ** createEventHub *)

(** What a call of [websocket.DefaultDialer.Dial] meets. *)
Inductive dial_outcome : Type :=
  | Connects (c : Conn)
  | NoSuchHost (host : string)     (* the resolver does not find the host *)
  | DialFails (why : string).      (* any other failure *)

(** The surroundings of [createEventHub]: the next free address of the Go
    heap, and what the function slept, logged and printed. *)
Record Startup : Type := mkStartup {
  next_addr : nat;
  slept : list Z;             (* seconds given to time.Sleep, oldest first *)
  info : list string;         (* lines given to logger.Info *)
  stdout : list string        (* lines printed by fmt.Println *)
}.

(** [&net.DNSError{...}]: a new variable, at an address not in use. *)
Definition new_DNSError (s : Startup) : nat * Startup :=
  (next_addr s, mkStartup (S (next_addr s)) (slept s) (info s) (stdout s)).

Definition logger_Info (line : string) (s : Startup) : Startup :=
  mkStartup (next_addr s) (slept s) (info s ++ [line]) (stdout s).

Definition time_Sleep (seconds : Z) (s : Startup) : Startup :=
  mkStartup (next_addr s) (slept s ++ [seconds]) (info s) (stdout s).

Definition fmt_Println (line : string) (s : Startup) : Startup :=
  mkStartup (next_addr s) (slept s) (info s) (stdout s ++ [line]).

(** [Dial] returns a connection and a nil error ([inl]), or a nil
    connection and an error that it allocates ([inr]): a failed lookup is
    reported as a [*net.OpError] around a new [*net.DNSError]. *)
Definition Dial (o : dial_outcome) (s : Startup) : (Conn + error) * Startup :=
  match o with
  | Connects c => (inl c, s)
  | NoSuchHost host =>
      let '(addr, s) := new_DNSError s in
      (inr (OpError "dial" "tcp" (DNSError addr host)), s)
  | DialFails why => (inr (OpError "dial" "tcp" (netError why)), s)
  end.

(** The loop of lines 29 to 39, entered with what the last [Dial] returned.
    Every evaluation of the test on line 30 allocates its target.
    [network] lists what the coming calls of [Dial] meet; when it is
    exhausted nothing is known about the next call, and the result is
    [None].  Otherwise the result is what is left of [network], the state,
    and the connection with which the loop ends ([inl]) or the error that
    line 37 returns ([inr]). *)
Fixpoint redial (network : list dial_outcome) (dialed : Conn + error)
    (s : Startup) : option ((Conn + error) * list dial_outcome * Startup) :=
  match dialed with
  | inl webSocketConnection => Some (inl webSocketConnection, network, s)
  | inr err =>
      let '(target, s) := new_DNSError s in
      if errors_Is_DNSError err target then
        let s := logger_Info "No host found." s in
        let s := logger_Info (Error err) s in
        let s := time_Sleep 2 s in
        match network with
        | [] => None
        | o :: network' =>
            let '(dialed, s) := Dial o s in
            redial network' dialed s
        end
      else Some (inr err, network, s)
  end.

(** [createEventHub]: the hub and a nil error ([inl]), or a nil hub and an
    error ([inr]).  [url] is the result of
    [makeWebSocketURL(eventEndpoint)]. *)
Definition createEventHub (url : string) (network : list dial_outcome)
    (s : Startup) : option ((EventHub + error) * list dial_outcome * Startup) :=
  let s := fmt_Println url s in
  match network with
  | [] => None
  | o :: network =>
      let '(dialed, s) := Dial o s in
      match redial network dialed s with
      | None => None
      | Some (inr err, network, s) => Some (inr err, network, s)
      | Some (inl webSocketConnection, network, s) =>
          let channelMap : gmap string any := ∅ in
          let res := mkEventHub webSocketConnection channelMap false in
          Some (inl res, network, s)
      end
  end.

#[global] Instance map_to_list_order : RangeOrder :=
  {| range_order := map_to_list; range_order_perm := fun m => reflexivity _ |}.

(** ** Vocabulary of the statements *)

(** The channel a registry value is, if it is one. *)
Definition chan_of (v : any) : option nat :=
  match v with
  | chanEvent c => Some c
  | notChan _ => None
  end.

Definition chans_of (entries : list (string * any)) : list nat :=
  omap (fun kv => chan_of kv.2) entries.

(** Channel [c] is allocated and open. *)
Definition open_at (σ : Process) (c : nat) : Prop :=
  ∃ ch, chans σ !! c = Some ch ∧ closed ch = false.

(** Session [k] is registered with channel [c]. *)
Definition registered (σ : Process) (k : string) (c : nat) : Prop :=
  channels (hub σ) !! k = Some (chanEvent c).

(** The registry as the hub's own methods keep it: every entry is an open
    channel, and no channel is stored under two keys. *)
Record wf (σ : Process) : Prop := mkWf {
  wf_open : ∀ k v, channels (hub σ) !! k = Some v →
            ∃ c, v = chanEvent c ∧ open_at σ c;
  wf_inj : ∀ k1 k2 c, registered σ k1 c → registered σ k2 c → k1 = k2
}.

(** The effects performed between [σ] and a later state [σ']. *)
Definition new_effects (σ σ' : Process) : list effect :=
  drop (length (trace σ)) (trace σ').

Definition log_lines (es : list effect) : list string :=
  omap (fun e => match e with DidLog line => Some line | _ => None end) es.

Definition closes_of (es : list effect) : list unit :=
  omap (fun e => match e with DidClose => Some tt | _ => None end) es.

Definition frames_read (es : list effect) : list frame :=
  omap (fun e => match e with DidRead f => Some f | _ => None end) es.

(** The sends of one broadcast of [message] over [entries]. *)
Definition sends_of (message : string) (entries : list (string * any))
    : list effect :=
  (fun c => DidSend c (mkEvent message)) <$> chans_of entries.

(** The effects of draining [entries]. *)
Definition drains_of (entries : list (string * any)) : list effect :=
  flat_map (fun kv =>
    match kv.2 with
    | chanEvent c =>
        [DidLog (shutting_down kv.1); DidCloseChan c; DidDelete kv.1]
    | notChan _ => []
    end) entries.

Definition receive (es : list Event) (ch : chan) : chan :=
  mkChan (closed ch) (delivered ch ++ es).

Definition shut (ch : chan) : chan := mkChan true (delivered ch).

(** A text frame with payload [p], read without error. *)
Definition text_frame (p : string) : frame := mkFrame TextMessage p None.

(** [m] never leads from a state to one that [R] does not relate to it. *)
Definition respects (R : Process → Process → Prop) {A} (m : M A) : Prop :=
  ∀ σ, R σ (final_state (m σ)).

(** [n + 1] calls of [Shutdown] in a row. *)
Fixpoint Shutdown_again (n : nat) : M unit :=
  match n with
  | 0 => Shutdown
  | S n' => Shutdown;; Shutdown_again n'
  end.

(** The calls of the hub's interface. *)
Inductive operation : Type :=
  | OpCall (c : call)
  | OpDispatch (sched : list tick).

Definition run_operation `{RangeOrder} (o : operation) : Process → Process :=
  match o with
  | OpCall c => fun σ => final_state (run_call c σ)
  | OpDispatch sched => fun σ => final_state (Dispatch sched σ)
  end.

(** The latch: a flag that is set stays set. *)
Definition latched (σ σ' : Process) : Prop :=
  didShutdown (hub σ) = true → didShutdown (hub σ') = true.

(** The connection of the hub is the same. *)
Definition same_conn (σ σ' : Process) : Prop :=
  inputConnection (hub σ') = inputConnection (hub σ).

(** The trace grows, by effects that all satisfy [P]. *)
Definition grows (P : effect → Prop) (σ σ' : Process) : Prop :=
  ∃ es, trace σ' = trace σ ++ es ∧ Forall P es.

(** Effects other than closing the connection and logging. *)
Definition quiet (e : effect) : Prop :=
  match e with
  | DidClose | DidLog _ => False
  | _ => True
  end.

(** Well-formedness is kept. *)
Definition keeps_wf (σ σ' : Process) : Prop := wf σ → wf σ'.

(** A tick that sets the flag from inside the loop: a failed read or a
    frame that is not a text frame. *)
Definition stops (t : tick) : Prop :=
  match t with
  | Recv f => is_Some (readErr f) ∨ messageType f ≠ TextMessage
  | Call _ => False
  end.

(** The frame is a text frame that was read without error. *)
Definition is_text (f : frame) : bool :=
  match readErr f with
  | None => bool_decide (messageType f = TextMessage)
  | Some _ => false
  end.

(** The payloads of the text frames of a schedule, in order of arrival. *)
Definition payloads_of (sched : list tick) : list string :=
  omap (fun t => match t with
                 | Recv f => if is_text f then Some (payload f) else None
                 | Call _ => None
                 end) sched.

(** The tick is a call of [Subscribe] or [Unsubscribe] for session [k]. *)
Definition names (k : string) (t : tick) : Prop :=
  match t with
  | Call (CallSubscribe session) | Call (CallUnsubscribe session) => session = k
  | _ => False
  end.

(** [runs sched σ σ']: the loop of [Dispatch], started in [σ], gets through
    the ticks of [sched] and stands in [σ'] before its next evaluation of
    the flag: every tick finds the flag clear, every iteration completes
    and every call of another goroutine returns. *)
Inductive runs `{RangeOrder} : list tick → Process → Process → Prop :=
  | runs_nil σ : runs [] σ σ
  | runs_Recv f sched σ σ1 σ' :
      didShutdown (hub σ) = false →
      iteration f σ = Returned tt σ1 →
      runs sched σ1 σ' →
      runs (Recv f :: sched) σ σ'
  | runs_Call c sched σ σ1 σ' :
      didShutdown (hub σ) = false →
      run_call c σ = Returned tt σ1 →
      runs sched σ1 σ' →
      runs (Call c :: sched) σ σ'.

(** ** States and inputs for the examples *)

(** A process with a new hub, as [createEventHub] builds it around a
    connection [c]. *)
Definition new_process (c : Conn) : Process :=
  mkProcess (mkEventHub c ∅ false) [] [].

(** Sessions A and B have subscribed; closing the connection will succeed. *)
Definition two_subscribers : Process :=
  final_state (Subscribe "B" (final_state (Subscribe "A" (new_process (mkConn None))))).

(** A binary frame ([websocket.BinaryMessage] is 2), read without error. *)
Definition binary : frame := mkFrame 2 "bytes" None.

(** A process whose registry holds a value that is not a channel. *)
Definition corrupted : Process :=
  mkProcess (mkEventHub (mkConn None) {["A" := notChan 0]} false) [] [].

(** ** Vocabulary of the further properties *)

(** Channel [c] exists and no key of the registry leads to it. *)
Definition orphan (σ : Process) (c : nat) : Prop :=
  is_Some (chans σ !! c) ∧ ∀ k, ¬ registered σ k c.

(** A well-formed state with the orphan [c] leads to such a state, in which
    [c] is as it was. *)
Definition keeps_orphan (c : nat) (σ σ' : Process) : Prop :=
  wf σ → orphan σ c →
  wf σ' ∧ orphan σ' c ∧ chans σ' !! c = chans σ !! c.

(** Calls of the hub, one after the other. *)
Definition run_operations `{RangeOrder} (os : list operation) (σ : Process)
    : Process :=
  foldl (fun σ o => run_operation o σ) σ os.

(** A tick that leaves the flag clear and cannot panic: a text frame read
    without error, or a call of [Subscribe]. *)
Definition calm (t : tick) : Prop :=
  match t with
  | Recv f => is_text f = true
  | Call (CallSubscribe _) => True
  | Call _ => False
  end.

(** Every send of [es] carries the payload of the frame that was read last
    before it; [current] is that payload at the start of [es], if a frame
    was read. *)
Fixpoint sends_follow_reads (current : option string) (es : list effect) : Prop :=
  match es with
  | [] => True
  | DidRead f :: es' => sends_follow_reads (Some (payload f)) es'
  | DidSend _ e :: es' =>
      current = Some (message e) ∧ sends_follow_reads current es'
  | _ :: es' => sends_follow_reads current es'
  end.

(** The effect is a send of the event with message [msg]. *)
Definition announces (msg : string) (e : effect) : Prop :=
  ∃ c, e = DidSend c (mkEvent msg).

(** Effects other than reads and sends. *)
Definition silent (e : effect) : Prop :=
  match e with
  | DidRead _ | DidSend _ _ => False
  | _ => True
  end.

(** The trace grows by effects in which the sends follow the reads,
    whatever was read before. *)
Definition grows_soundly (σ σ' : Process) : Prop :=
  ∃ es, trace σ' = trace σ ++ es ∧ ∀ current, sends_follow_reads current es.

(** ** The persona systems: the update of the signer component *)

(** [type SignerComponent struct] *)
Record SignerComponent : Type := mkSignerComponent {
  PersonaTag : string;
  SignerAddress : string;
  AuthorizedAddresses : list string
}.

(** The closure that [AuthorizePersonaAddressSystem] gives to
    [UpdateComponent] for the address [Address] of the transaction: the
    component is returned as it is when the address is among the
    authorized ones, and with the address appended otherwise. *)
Definition authorize (Address : string) (s : SignerComponent) : SignerComponent :=
  if existsb (fun addr => String.eqb addr Address) (AuthorizedAddresses s)
  then s
  else mkSignerComponent (PersonaTag s) (SignerAddress s)
         (AuthorizedAddresses s ++ [Address]).

(** * Properties *)

(** ** The three short methods *)

Lemma Subscribe_eq session σ :
  Subscribe session σ =
  Returned (length (chans σ))
    (mkProcess
       (set_channels (fun m => <[session := chanEvent (length (chans σ))]> m) (hub σ))
       (chans σ ++ [mkChan false []])
       (trace σ ++ [DidStore session (chanEvent (length (chans σ)))])).
Proof. reflexivity. Qed.

Lemma Unsubscribe_registered session c ch σ :
  registered σ session c →
  chans σ !! c = Some ch →
  closed ch = false →
  Unsubscribe session σ =
  Returned tt
    (mkProcess
       (set_channels (fun m => delete session m) (hub σ))
       (<[c := shut ch]> (chans σ))
       ((trace σ ++ [DidCloseChan c]) ++ [DidDelete session])).
Proof.
  intros Hreg Hch Hopen.
  unfold Unsubscribe, mbind, M_bind, bind, Load. rewrite Hreg.
  unfold close. rewrite Hch, Hopen. reflexivity.
Qed.

(** A call of [Unsubscribe] that does not return leaves the state as it
    was. *)
Lemma Unsubscribe_cases session σ :
  (∃ e, Unsubscribe session σ = Panicked e σ) ∨
  (∃ c ch, registered σ session c ∧ chans σ !! c = Some ch ∧ closed ch = false).
Proof.
  unfold Unsubscribe, mbind, M_bind, bind, Load, registered.
  destruct (channels (hub σ) !! session) as [[c|tag]|] eqn:Hk; simpl; eauto.
  unfold close. destruct (chans σ !! c) as [ch|] eqn:Hc; eauto.
  destruct (closed ch) eqn:Ho; eauto 6.
Qed.

Lemma wf_Subscribe session σ : wf σ → wf (final_state (Subscribe session σ)).
Proof.
  intros [Hopen Hinj]. rewrite Subscribe_eq. simpl.
  assert (Hfresh : ∀ k, ¬ registered σ k (length (chans σ))).
  { intros k Hk. destruct (Hopen _ _ Hk) as (c & [= <-] & ch & Hch & _).
    apply lookup_lt_Some in Hch. lia. }
  split; unfold registered, open_at; simpl.
  - intros k v Hk. destruct (decide (session = k)) as [<-|Hne].
    + rewrite lookup_insert_eq in Hk. injection Hk as <-.
      eexists; split; [done|]. exists (mkChan false []).
      split; [|done]. rewrite lookup_app_r by lia.
      by rewrite Nat.sub_diag.
    + rewrite lookup_insert_ne in Hk by done.
      destruct (Hopen _ _ Hk) as (c & -> & ch & Hch & Hcl).
      exists c; split; [done|]. exists ch. split; [|done].
      by apply lookup_app_l_Some.
  - intros k1 k2 c H1 H2.
    destruct (decide (session = k1)) as [<-|Hn1];
      destruct (decide (session = k2)) as [<-|Hn2]; [done|..].
    + rewrite lookup_insert_eq in H1. rewrite lookup_insert_ne in H2 by done.
      injection H1 as <-. by destruct (Hfresh k2).
    + rewrite lookup_insert_eq in H2. rewrite lookup_insert_ne in H1 by done.
      injection H2 as <-. by destruct (Hfresh k1).
    + rewrite lookup_insert_ne in H1, H2 by done. eauto.
Qed.

Lemma wf_Unsubscribe session σ : wf σ → wf (final_state (Unsubscribe session σ)).
Proof.
  intros Hwf. destruct (Unsubscribe_cases session σ) as [[e ->]|(c & ch & Hreg & Hch & Hcl)];
    [done|].
  rewrite (Unsubscribe_registered _ _ _ _ Hreg Hch Hcl). simpl.
  destruct Hwf as [Hopen Hinj].
  split; unfold registered, open_at; simpl.
  - intros k v Hk. apply lookup_delete_Some in Hk as [Hne Hk].
    destruct (Hopen _ _ Hk) as (c' & -> & ch' & Hch' & Hcl').
    exists c'; split; [done|]. exists ch'. split; [|done].
    rewrite list_lookup_insert_ne; [done|].
    intros <-. apply Hne. by apply (Hinj _ _ c).
  - intros k1 k2 c' H1 H2.
    apply lookup_delete_Some in H1 as [_ H1].
    apply lookup_delete_Some in H2 as [_ H2]. eauto.
Qed.

Lemma wf_Shutdown σ : wf σ → wf (final_state (Shutdown σ)).
Proof. intros [Hopen Hinj]. by split. Qed.

(** ** Sequencing *)

Lemma bind_Returned {A B} (m : M A) (k : A → M B) σ a σ' :
  m σ = Returned a σ' → (m ≫= k) σ = k a σ'.
Proof. intros Hm. unfold mbind, M_bind, bind. by rewrite Hm. Qed.

Lemma bind_Panicked {A B} (m : M A) (k : A → M B) σ e σ' :
  m σ = Panicked e σ' → (m ≫= k) σ = Panicked e σ'.
Proof. intros Hm. unfold mbind, M_bind, bind. by rewrite Hm. Qed.

Lemma bind_Blocked {A B} (m : M A) (k : A → M B) σ σ' :
  m σ = Blocked σ' → (m ≫= k) σ = Blocked σ'.
Proof. intros Hm. unfold mbind, M_bind, bind. by rewrite Hm. Qed.

Lemma send_open c e ch σ :
  chans σ !! c = Some ch →
  closed ch = false →
  send c e σ =
  Returned tt (mkProcess (hub σ) (<[c := receive [e] ch]> (chans σ))
                 (trace σ ++ [DidSend c e])).
Proof.
  intros Hch Hcl. unfold send. rewrite Hch, Hcl.
  unfold receive. by rewrite Hcl.
Qed.

(** ** One broadcast *)

Lemma Range_from_deliver message entries σ :
  (∀ kv, kv ∈ entries → ∃ c, kv.2 = chanEvent c ∧ open_at σ c) →
  NoDup (chans_of entries) →
  ∃ σ',
    Range_from (deliver message) entries None σ = Returned None σ' ∧
    hub σ' = hub σ ∧
    trace σ' = trace σ ++ sends_of message entries ∧
    ∀ c, chans σ' !! c =
         if decide (c ∈ chans_of entries)
         then receive [mkEvent message] <$> chans σ !! c
         else chans σ !! c.
Proof.
  revert σ. induction entries as [|[key value] entries IH]; intros σ Hopen Hnodup.
  - exists σ. split; [done|]. split; [done|]. split.
    + simpl. by rewrite app_nil_r.
    + intros c. by rewrite decide_False by apply not_elem_of_nil.
  - destruct (Hopen (key, value)) as (c & Hv & ch & Hch & Hcl); [left|].
    simpl in Hv. subst value.
    change (chans_of ((key, chanEvent c) :: entries)) with (c :: chans_of entries) in *.
    apply NoDup_cons in Hnodup as [Hnotin Hnodup].
    set (σ1 := mkProcess (hub σ) (<[c := receive [mkEvent message] ch]> (chans σ))
                 (trace σ ++ [DidSend c (mkEvent message)])).
    destruct (IH σ1) as (σ' & Hrun & Hhub & Htrace & Hchans); [|done|].
    { intros kv Hin. destruct (Hopen kv) as (c' & Hv' & ch' & Hch' & Hcl'); [by right|].
      exists c'; split; [done|]. exists ch'. split; [|done]. simpl.
      rewrite list_lookup_insert_ne; [done|]. intros <-. apply Hnotin.
      apply list_elem_of_omap. exists kv. split; [done|]. by rewrite Hv'. }
    exists σ'. split; [|split; [|split]].
    + cbn [Range_from].
      erewrite bind_Returned; [|unfold deliver; erewrite bind_Returned;
                                 [reflexivity|by apply send_open]].
      exact Hrun.
    + by rewrite Hhub.
    + rewrite Htrace. simpl. by rewrite <- app_assoc.
    + intros c'. rewrite Hchans. simpl.
      destruct (decide (c' = c)) as [->|Hne].
      * rewrite decide_False by done. rewrite decide_True by left.
        rewrite list_lookup_insert_eq by (by eapply lookup_lt_Some).
        by rewrite Hch.
      * rewrite list_lookup_insert_ne by done.
        destruct (decide (c' ∈ chans_of entries)) as [Hin|Hnin].
        -- by rewrite decide_True by (by right).
        -- rewrite decide_False; [done|]. by intros [?|?]%elem_of_cons.
Qed.

(** ** The drain of the registry *)

Lemma Range_from_drain entries σ :
  NoDup entries.*1 →
  (∀ kv, kv ∈ entries → channels (hub σ) !! kv.1 = Some kv.2) →
  (∀ kv, kv ∈ entries → ∃ c, kv.2 = chanEvent c ∧ open_at σ c) →
  NoDup (chans_of entries) →
  ∃ σ',
    Range_from drain entries tt σ = Returned tt σ' ∧
    inputConnection (hub σ') = inputConnection (hub σ) ∧
    didShutdown (hub σ') = didShutdown (hub σ) ∧
    trace σ' = trace σ ++ drains_of entries ∧
    (∀ k, channels (hub σ') !! k =
          if decide (k ∈ entries.*1) then None else channels (hub σ) !! k) ∧
    (∀ c, chans σ' !! c =
          if decide (c ∈ chans_of entries) then shut <$> chans σ !! c
          else chans σ !! c).
Proof.
  revert σ. induction entries as [|[key value] entries IH];
    intros σ Hkeys Hreg Hopen Hnodup.
  - exists σ. repeat (split; [done|]). split; [|split].
    + simpl. by rewrite app_nil_r.
    + intros k. by rewrite decide_False by apply not_elem_of_nil.
    + intros c. by rewrite decide_False by apply not_elem_of_nil.
  - destruct (Hopen (key, value)) as (c & Hv & ch & Hch & Hcl); [left|].
    simpl in Hv. subst value.
    change (chans_of ((key, chanEvent c) :: entries)) with (c :: chans_of entries) in *.
    apply NoDup_cons in Hnodup as [Hnotin Hnodup].
    rewrite fmap_cons in Hkeys. simpl in Hkeys.
    apply NoDup_cons in Hkeys as [Hknotin Hkeys].
    assert (Hk : registered σ key c) by apply (Hreg (key, chanEvent c)), list_elem_of_here.
    set (σ1 := mkProcess (set_channels (fun m => delete key m) (hub σ))
                 (<[c := shut ch]> (chans σ))
                 (((trace σ ++ [DidLog (shutting_down key)])
                     ++ [DidCloseChan c]) ++ [DidDelete key])).
    destruct (IH σ1) as (σ' & Hrun & Hconn & Hflag & Htrace & Hmap & Hchans);
      [done| | |done|].
    { intros kv Hin. simpl. rewrite lookup_delete_ne; [by apply Hreg; right|].
      intros ->. apply Hknotin. apply list_elem_of_fmap. by exists kv. }
    { intros kv Hin. destruct (Hopen kv) as (c' & Hv' & ch' & Hch' & Hcl'); [by right|].
      exists c'; split; [done|]. exists ch'. split; [|done]. simpl.
      rewrite list_lookup_insert_ne; [done|]. intros <-. apply Hnotin.
      apply list_elem_of_omap. exists kv. split; [done|]. by rewrite Hv'. }
    exists σ'. split; [|split; [|split; [|split; [|split]]]].
    + cbn [Range_from].
      assert (Hdrain : drain key (chanEvent c) tt σ = Returned (true, tt) σ1).
      { unfold drain. erewrite bind_Returned; [|reflexivity].
        erewrite bind_Returned; [reflexivity|].
        by apply (Unsubscribe_registered key c ch). }
      by rewrite (bind_Returned _ _ _ _ _ Hdrain).
    + by rewrite Hconn.
    + by rewrite Hflag.
    + rewrite Htrace. simpl. by rewrite <- !app_assoc.
    + intros k. rewrite Hmap. simpl. rewrite lookup_delete.
      destruct (decide (k ∈ entries.*1)) as [Hin|Hnin].
      * by rewrite decide_True by (by right).
      * destruct (decide (key = k)) as [<-|Hne].
        -- by rewrite decide_True by left.
        -- rewrite decide_False; [done|].
           intros [?|?]%elem_of_cons; [congruence|done].
    + intros c'. rewrite Hchans. simpl.
      destruct (decide (c' = c)) as [->|Hne].
      * rewrite decide_False by done. rewrite decide_True by left.
        rewrite list_lookup_insert_eq by (by eapply lookup_lt_Some).
        by rewrite Hch.
      * rewrite list_lookup_insert_ne by done.
        destruct (decide (c' ∈ chans_of entries)) as [Hin|Hnin].
        -- by rewrite decide_True by (by right).
        -- rewrite decide_False; [done|]. by intros [?|?]%elem_of_cons.
Qed.

(** ** The entries that Range visits *)

Section range.
Context `{RangeOrder}.

Lemma elem_of_range_order m kv :
  kv ∈ range_order m ↔ m !! kv.1 = Some kv.2.
Proof.
  rewrite range_order_perm. destruct kv as [k v]. apply elem_of_map_to_list.
Qed.

Lemma NoDup_range_order_keys m : NoDup (range_order m).*1.
Proof. rewrite range_order_perm. apply NoDup_fst_map_to_list. Qed.

Lemma range_order_keys m k : k ∈ (range_order m).*1 ↔ is_Some (m !! k).
Proof.
  rewrite list_elem_of_fmap. split.
  - intros ([k' v] & -> & Hin). apply elem_of_range_order in Hin. by exists v.
  - intros [v Hv]. exists (k, v). split; [done|]. by apply elem_of_range_order.
Qed.

Lemma range_order_open σ kv :
  wf σ → kv ∈ range_order (channels (hub σ)) →
  ∃ c, kv.2 = chanEvent c ∧ open_at σ c.
Proof.
  intros Hwf Hin. apply elem_of_range_order in Hin.
  by apply (wf_open _ Hwf kv.1).
Qed.

Lemma range_order_chans σ c :
  c ∈ chans_of (range_order (channels (hub σ))) ↔ ∃ k, registered σ k c.
Proof.
  unfold chans_of. rewrite list_elem_of_omap. split.
  - intros ([k v] & Hin & Hc). apply elem_of_range_order in Hin.
    destruct v; simplify_eq/=. by exists k.
  - intros [k Hk]. exists (k, chanEvent c). split; [|done].
    by apply elem_of_range_order.
Qed.
End range.

Lemma NoDup_chans_of σ entries :
  wf σ →
  NoDup entries.*1 →
  (∀ kv, kv ∈ entries → channels (hub σ) !! kv.1 = Some kv.2) →
  NoDup (chans_of entries).
Proof.
  intros Hwf. induction entries as [|[k v] entries IH]; intros Hkeys Hreg.
  - constructor.
  - rewrite fmap_cons in Hkeys. apply NoDup_cons in Hkeys as [Hk Hkeys].
    unfold chans_of. simpl. fold (chans_of entries).
    assert (IH' : NoDup (chans_of entries)).
    { apply IH; [done|]. intros kv Hin. apply Hreg. by right. }
    destruct v as [c|tag]; simpl; [|done].
    apply NoDup_cons. split; [|done].
    intros ([k' v'] & Hin & Hc)%list_elem_of_omap. simpl in Hc.
    destruct v' as [c'|]; simplify_eq/=.
    apply Hk. apply list_elem_of_fmap. exists (k', chanEvent c). split; [|done].
    apply (wf_inj _ Hwf k k' c).
    + apply (Hreg (k, chanEvent c)). left.
    + apply (Hreg (k', chanEvent c)). by right.
Qed.

Lemma new_effects_app σ σ' es :
  trace σ' = trace σ ++ es → new_effects σ σ' = es.
Proof. intros Ht. unfold new_effects. rewrite Ht. apply drop_app_length. Qed.

Section hub.
Context `{RangeOrder}.

(** A broadcast in a well-formed state reaches every registered channel
    once and nothing else. *)
Lemma broadcast_wf message σ :
  wf σ →
  ∃ σ',
    Range (deliver message) None σ = Returned None σ' ∧
    hub σ' = hub σ ∧
    trace σ' = trace σ ++ sends_of message (range_order (channels (hub σ))) ∧
    (∀ k c, registered σ k c →
            chans σ' !! c = receive [mkEvent message] <$> chans σ !! c) ∧
    (∀ c, (∀ k, ¬ registered σ k c) → chans σ' !! c = chans σ !! c) ∧
    wf σ'.
Proof.
  intros Hwf.
  destruct (Range_from_deliver message (range_order (channels (hub σ))) σ)
    as (σ' & Hrun & Hhub & Htrace & Hchans).
  { intros kv. by apply range_order_open. }
  { apply (NoDup_chans_of σ); [done|apply NoDup_range_order_keys|].
    intros kv. apply elem_of_range_order. }
  assert (Hin : ∀ k c, registered σ k c →
            chans σ' !! c = receive [mkEvent message] <$> chans σ !! c).
  { intros k c Hk. rewrite Hchans, decide_True; [done|].
    apply range_order_chans. by exists k. }
  exists σ'. split; [done|]. split; [done|]. split; [done|]. split; [done|]. split.
  - intros c Hc. rewrite Hchans, decide_False; [done|].
    intros [k Hk]%range_order_chans. by apply (Hc k).
  - split; unfold registered; rewrite Hhub.
    + intros k v Hk. destruct (wf_open _ Hwf _ _ Hk) as (c & -> & ch & Hch & Hcl).
      exists c. split; [done|]. exists (receive [mkEvent message] ch).
      split; [|done]. rewrite (Hin k c Hk). by rewrite Hch.
    + apply (wf_inj _ Hwf).
Qed.

(** An iteration that reads a text frame. *)
Lemma iteration_text p σ :
  wf σ →
  ∃ σ',
    iteration (text_frame p) σ = Returned tt σ' ∧
    hub σ' = hub σ ∧
    trace σ' = trace σ ++ DidRead (text_frame p)
                 :: sends_of p (range_order (channels (hub σ))) ∧
    (∀ k c, registered σ k c →
            chans σ' !! c = receive [mkEvent p] <$> chans σ !! c) ∧
    (∀ c, (∀ k, ¬ registered σ k c) → chans σ' !! c = chans σ !! c) ∧
    wf σ'.
Proof.
  intros Hwf.
  destruct (broadcast_wf p (emit (DidRead (text_frame p)) σ))
    as (σ' & Hrun & Hhub & Htrace & Hin & Hout & Hwf').
  { destruct Hwf. by split. }
  exists σ'. split; [|split; [done|split; [|done]]].
  - unfold iteration. erewrite bind_Returned; [|reflexivity]. simpl.
    by erewrite bind_Returned; [|exact Hrun].
  - rewrite Htrace. simpl. by rewrite <- app_assoc.
Qed.

(** An iteration whose read fails, or that reads a frame that is not a
    text frame: the frame is dropped and the flag is set. *)
Lemma iteration_stop f σ :
  is_Some (readErr f) ∨ messageType f ≠ TextMessage →
  iteration f σ = Returned tt (set_hub (set_didShutdown true) (emit (DidRead f) σ)).
Proof.
  intros Hstop. unfold iteration. erewrite bind_Returned; [|reflexivity].
  destruct (readErr f) as [e|] eqn:He; [done|].
  destruct Hstop as [[? [=]]|Hty]. by rewrite bool_decide_eq_true_2.
Qed.

(** The drain of a well-formed registry. *)
Lemma drain_wf σ :
  wf σ →
  ∃ σ',
    Range drain tt σ = Returned tt σ' ∧
    inputConnection (hub σ') = inputConnection (hub σ) ∧
    didShutdown (hub σ') = didShutdown (hub σ) ∧
    channels (hub σ') = ∅ ∧
    trace σ' = trace σ ++ drains_of (range_order (channels (hub σ))) ∧
    (∀ k c, registered σ k c → chans σ' !! c = shut <$> chans σ !! c) ∧
    (∀ c, (∀ k, ¬ registered σ k c) → chans σ' !! c = chans σ !! c).
Proof.
  intros Hwf.
  destruct (Range_from_drain (range_order (channels (hub σ))) σ)
    as (σ' & Hrun & Hconn & Hflag & Htrace & Hmap & Hchans).
  { apply NoDup_range_order_keys. }
  { intros kv. apply elem_of_range_order. }
  { intros kv. by apply range_order_open. }
  { apply (NoDup_chans_of σ); [done|apply NoDup_range_order_keys|].
    intros kv. apply elem_of_range_order. }
  exists σ'. repeat (split; [done|]). split; [|split; [done|split]].
  - apply map_eq. intros k. rewrite Hmap, lookup_empty.
    case_decide as Hk; [done|].
    rewrite range_order_keys in Hk. by apply eq_None_not_Some.
  - intros k c Hk. rewrite Hchans, decide_True; [done|].
    apply range_order_chans. by exists k.
  - intros c Hc. rewrite Hchans, decide_False; [done|].
    intros [k Hk]%range_order_chans. by apply (Hc k).
Qed.
End hub.

(** ** Relations that every step respects *)

Section respects.
Context (R : Process → Process → Prop) `{!PreOrder R}.

Lemma respects_ret {A} (a : A) : respects R (mret a).
Proof. intros σ. simpl. reflexivity. Qed.

Lemma respects_panic {A} e : respects R (panic (A := A) e).
Proof. intros σ. simpl. reflexivity. Qed.

Lemma respects_Load key : respects R (Load key).
Proof. intros σ. simpl. reflexivity. Qed.

Lemma respects_bind {A B} (m : M A) (k : A → M B) :
  respects R m → (∀ a, respects R (k a)) → respects R (m ≫= k).
Proof.
  intros Hm Hk σ. specialize (Hm σ).
  unfold mbind, M_bind, bind. destruct (m σ) as [a σ'| |]; simpl in *; [|done..].
  etrans; [exact Hm|apply Hk].
Qed.

Lemma respects_Range_from {L} (f : string → any → L → M (bool * L)) :
  (∀ key value l, respects R (f key value l)) →
  ∀ entries l, respects R (Range_from f entries l).
Proof.
  intros Hf entries. induction entries as [|[key value] entries IH]; intros l.
  - apply respects_ret.
  - cbn [Range_from]. apply respects_bind; [apply Hf|].
    intros [[] l']; [apply IH|apply respects_ret].
Qed.

Context `{RangeOrder}.

Lemma respects_Range {L} (f : string → any → L → M (bool * L)) l :
  (∀ key value l, respects R (f key value l)) → respects R (Range f l).
Proof. intros Hf σ. by apply respects_Range_from. Qed.

Lemma respects_Dispatch_loop :
  (∀ c, respects R (run_call c)) →
  (∀ f, respects R (iteration f)) →
  ∀ sched, respects R (Dispatch_loop sched).
Proof.
  intros Hcall Hiter sched. induction sched as [|[f|c] sched IH]; intros σ;
    cbn [Dispatch_loop]; destruct (didShutdown (hub σ)); simpl; try reflexivity.
  - by apply (respects_bind (iteration f)).
  - by apply (respects_bind (run_call c)).
Qed.

(** What remains is to know that the primitive steps respect [R]. *)
Hypothesis R_make_chan : respects R make_chan.
Hypothesis R_close : ∀ c, respects R (close c).
Hypothesis R_send : ∀ c e, respects R (send c e).
Hypothesis R_Store : ∀ key value, respects R (Store key value).
Hypothesis R_Delete : ∀ key, respects R (Delete key).
Hypothesis R_Shutdown : respects R Shutdown.
Hypothesis R_ReadMessage : ∀ f, respects R (ReadMessage f).

Lemma respects_Subscribe session : respects R (Subscribe session).
Proof.
  apply respects_bind; [done|]. intros c.
  apply respects_bind; [done|]. intros _. apply respects_ret.
Qed.

Lemma respects_Unsubscribe session : respects R (Unsubscribe session).
Proof.
  apply respects_bind; [apply respects_Load|].
  intros [[c|tag]|]; try apply respects_panic.
  by apply respects_bind.
Qed.

Lemma respects_run_call c : respects R (run_call c).
Proof.
  destruct c as [session|session|]; simpl; [|apply respects_Unsubscribe|done].
  apply respects_bind; [apply respects_Subscribe|]. intros _. apply respects_ret.
Qed.

Lemma respects_deliver message key value err :
  respects R (deliver message key value err).
Proof.
  destruct value as [c|tag]; simpl.
  - apply respects_bind; [done|]. intros _. apply respects_ret.
  - apply respects_bind; [done|]. intros _. apply respects_ret.
Qed.

Lemma respects_iteration f : respects R (iteration f).
Proof.
  apply respects_bind; [done|]. intros r. simpl.
  destruct (readErr r); [done|]. case_bool_decide; [done|].
  apply respects_bind; [apply respects_Range, respects_deliver|].
  intros [e|]; [done|apply respects_ret].
Qed.

Lemma respects_loop sched : respects R (Dispatch_loop sched).
Proof.
  apply respects_Dispatch_loop; [apply respects_run_call|apply respects_iteration].
Qed.

Hypothesis R_Info : ∀ line, respects R (Info line).
Hypothesis R_Close : respects R Close.

Lemma respects_drain key value u : respects R (drain key value u).
Proof.
  apply respects_bind; [done|]. intros _.
  apply respects_bind; [apply respects_Unsubscribe|]. intros _. apply respects_ret.
Qed.

Lemma respects_Dispatch sched : respects R (Dispatch sched).
Proof.
  apply respects_bind; [apply respects_loop|]. intros _.
  apply respects_bind; [apply respects_Range, respects_drain|]. intros _.
  apply respects_bind; [done|]. intros e. apply respects_ret.
Qed.
End respects.

(** ** The latch, the connection and the trace *)

#[global] Instance latched_preorder : PreOrder latched.
Proof. split; unfold latched; [by intros σ|intros σ1 σ2 σ3; auto]. Qed.

#[global] Instance same_conn_preorder : PreOrder same_conn.
Proof. split; unfold same_conn; [by intros σ|intros σ1 σ2 σ3; congruence]. Qed.

#[global] Instance grows_preorder P : PreOrder (grows P).
Proof.
  split.
  - intros σ. exists []. split; [by rewrite app_nil_r|constructor].
  - intros σ1 σ2 σ3 (es1 & H1 & P1) (es2 & H2 & P2). exists (es1 ++ es2).
    split; [by rewrite H2, H1, app_assoc|by apply Forall_app].
Qed.

#[global] Instance keeps_wf_preorder : PreOrder keeps_wf.
Proof. split; unfold keeps_wf; [by intros σ|intros σ1 σ2 σ3; auto]. Qed.

Lemma grows_emit P e σ σ' :
  P e → trace σ' = trace σ ++ [e] → grows P σ σ'.
Proof. intros HP Ht. exists [e]. split; [done|by constructor]. Qed.

Lemma grows_same P σ σ' : trace σ' = trace σ → grows P σ σ'.
Proof. intros Ht. exists []. split; [by rewrite app_nil_r|constructor]. Qed.

Lemma close_cases c σ :
  (∃ e, close c σ = Panicked e σ) ∨
  (∃ ch, chans σ !! c = Some ch ∧ closed ch = false ∧
         close c σ = Returned tt
           (mkProcess (hub σ) (<[c := shut ch]> (chans σ))
              (trace σ ++ [DidCloseChan c]))).
Proof.
  unfold close. destruct (chans σ !! c) as [ch|]; [|eauto].
  destruct (closed ch) eqn:Hcl; eauto 6.
Qed.

Lemma send_cases c e σ :
  (∃ x, send c e σ = Panicked x σ) ∨ send c e σ = Blocked σ ∨
  (∃ ch, chans σ !! c = Some ch ∧ closed ch = false ∧
         send c e σ = Returned tt
           (mkProcess (hub σ) (<[c := receive [e] ch]> (chans σ))
              (trace σ ++ [DidSend c e]))).
Proof.
  destruct (chans σ !! c) as [ch|] eqn:Hch.
  - destruct (closed ch) eqn:Hcl.
    + left. unfold send. rewrite Hch, Hcl. eauto.
    + right; right. exists ch. by rewrite (send_open c e ch).
  - right; left. unfold send. by rewrite Hch.
Qed.

Section everywhere.
Context `{RangeOrder}.

Ltac primitive :=
  let σ := fresh "σ" in
  intros σ;
  lazymatch goal with
  | |- context [close ?c σ] =>
      destruct (close_cases c σ) as [[? ->]|(? & _ & _ & ->)]
  | |- context [send ?c ?e σ] =>
      destruct (send_cases c e σ) as [[? ->]|[->|(? & _ & _ & ->)]]
  | |- _ => idtac
  end;
  simpl; try reflexivity; unfold latched, same_conn; simpl; try done;
  first [ by apply grows_same
        | eapply grows_emit; [|simpl; reflexivity]; done ].

(** The flag is never cleared. *)
Lemma latched_Dispatch sched : respects latched (Dispatch sched).
Proof. apply respects_Dispatch; try apply _; intros; primitive. Qed.

Lemma latched_run_call c : respects latched (run_call c).
Proof. apply respects_run_call; try apply _; intros; primitive. Qed.

(** The connection of the hub is never replaced. *)
Lemma same_conn_loop sched : respects same_conn (Dispatch_loop sched).
Proof. apply respects_loop; try apply _; intros; primitive. Qed.

(** The loop neither logs nor closes the connection. *)
Lemma quiet_loop sched : respects (grows quiet) (Dispatch_loop sched).
Proof. apply respects_loop; try apply _; intros; primitive. Qed.
End everywhere.

(** ** Well-formed states *)

Lemma wf_new_process c : wf (new_process c).
Proof.
  split; unfold registered; simpl.
  - intros k v Hk. by rewrite lookup_empty in Hk.
  - intros k1 k2 ch Hk. by rewrite lookup_empty in Hk.
Qed.

Lemma wf_two_subscribers : wf two_subscribers.
Proof. apply wf_Subscribe, wf_Subscribe, wf_new_process. Qed.

Lemma wf_emit e σ : wf σ → wf (emit e σ).
Proof. intros [Hopen Hinj]. by split. Qed.

Lemma bind_Returned_inv {A B} (m : M A) (k : A → M B) σ b σ' :
  (m ≫= k) σ = Returned b σ' →
  ∃ a σ1, m σ = Returned a σ1 ∧ k a σ1 = Returned b σ'.
Proof.
  unfold mbind, M_bind, bind. destruct (m σ) as [a σ1| |]; [|done..].
  intros Hk. by exists a, σ1.
Qed.

Section loop.
Context `{RangeOrder}.

Lemma wf_run_call c : respects keeps_wf (run_call c).
Proof.
  intros σ Hwf. destruct c as [session|session|]; cbn [run_call].
  - rewrite (bind_Returned _ _ _ _ _ (Subscribe_eq session σ)). simpl.
    apply (wf_Subscribe session) in Hwf. by rewrite Subscribe_eq in Hwf.
  - by apply wf_Unsubscribe.
  - by apply wf_Shutdown.
Qed.

Lemma wf_iteration f : respects keeps_wf (iteration f).
Proof.
  intros σ Hwf. destruct f as [ty p [e|]].
  - rewrite iteration_stop by (left; eauto). simpl.
    by apply wf_Shutdown, wf_emit.
  - destruct (decide (ty = TextMessage)) as [->|Hty].
    + destruct (iteration_text p σ Hwf) as (σ' & Hrun & _ & _ & _ & _ & Hwf').
      change (mkFrame TextMessage p None) with (text_frame p).
      by rewrite Hrun.
    + rewrite iteration_stop by (by right). simpl.
      by apply wf_Shutdown, wf_emit.
Qed.

Lemma wf_loop sched : respects keeps_wf (Dispatch_loop sched).
Proof.
  apply respects_Dispatch_loop; [apply _|apply wf_run_call|apply wf_iteration].
Qed.

(** The loop is left with the flag set, and only so. *)
Lemma loop_exit sched σ σ' :
  Dispatch_loop sched σ = Returned tt σ' → didShutdown (hub σ') = true.
Proof.
  revert σ. induction sched as [|[f|c] sched IH]; intros σ;
    cbn [Dispatch_loop]; destruct (didShutdown (hub σ)) eqn:Hflag;
    try (intros [= <-]; done); try done.
  - intros (a & σ1 & _ & Hloop)%bind_Returned_inv. by apply (IH σ1).
  - intros (a & σ1 & _ & Hloop)%bind_Returned_inv. by apply (IH σ1).
Qed.

Lemma loop_flag_set sched σ :
  didShutdown (hub σ) = true → Dispatch_loop sched σ = Returned tt σ.
Proof. intros Hflag. destruct sched as [|[f|c] sched]; simpl; by rewrite Hflag. Qed.

(** Once the loop is left in a well-formed state, [Dispatch] drains the
    registry, closes the connection and returns what [Close] returned,
    joined with nil. *)
Lemma Dispatch_after_loop sched σ σ1 :
  wf σ →
  Dispatch_loop sched σ = Returned tt σ1 →
  ∃ σ2,
    Dispatch sched σ =
      Returned (errors_Join [closeErr (inputConnection (hub σ)); None])
        (emit DidClose σ2) ∧
    wf σ1 ∧
    didShutdown (hub σ2) = true ∧
    channels (hub σ2) = ∅ ∧
    trace σ2 = trace σ1 ++ drains_of (range_order (channels (hub σ1))) ∧
    (∀ k c, registered σ1 k c → chans σ2 !! c = shut <$> chans σ1 !! c) ∧
    (∀ c, (∀ k, ¬ registered σ1 k c) → chans σ2 !! c = chans σ1 !! c).
Proof.
  intros Hwf Hloop.
  assert (Hwf1 : wf σ1).
  { pose proof (wf_loop sched σ Hwf) as Hw. by rewrite Hloop in Hw. }
  assert (Hconn1 : inputConnection (hub σ1) = inputConnection (hub σ)).
  { pose proof (same_conn_loop sched σ) as Hc. by rewrite Hloop in Hc. }
  destruct (drain_wf σ1 Hwf1)
    as (σ2 & Hdrain & Hconn & Hflag & Hempty & Htrace & Hin & Hout).
  exists σ2. split; [|split; [done|split; [|done]]].
  - unfold Dispatch. rewrite (bind_Returned _ _ _ _ _ Hloop).
    rewrite (bind_Returned _ _ _ _ _ Hdrain).
    erewrite bind_Returned; [|reflexivity]. simpl.
    by rewrite Hconn, Hconn1.
  - rewrite Hflag. by apply (loop_exit sched σ).
Qed.
End loop.

(** * The claims *)

(** ** Unsubscribe *)

(** C6.  For a session key that is not in the registry, [Unsubscribe]
    panics with the error "session not found", and the state of the
    process, its registry included, is as before the call. *)
Theorem Unsubscribe_unknown_session_panics session σ :
  channels (hub σ) !! session = None →
  Unsubscribe session σ = Panicked (errorString "session not found") σ.
Proof.
  intros Habsent.
  unfold Unsubscribe. erewrite bind_Returned; [|reflexivity].
  by rewrite Habsent.
Qed.

Lemma Unsubscribe_unknown_session_panics_witness :
  channels (hub two_subscribers) !! "C" = None ∧
  Unsubscribe "C" two_subscribers =
    Panicked (errorString "session not found") two_subscribers.
Proof.
  split; [reflexivity|].
  apply (Unsubscribe_unknown_session_panics "C" two_subscribers). reflexivity.
Defined.

(** C7.  For a session key registered with a channel, [Unsubscribe] first
    closes the channel and then deletes the key, and nothing else: the
    registry has no entry for the key afterwards, the channel is closed
    with what was delivered on it intact, and no key of the registry leads
    to it any more, so that no broadcast sends on it. *)
Theorem Unsubscribe_closes_then_removes session c σ :
  wf σ →
  registered σ session c →
  ∃ ch σ',
    chans σ !! c = Some ch ∧
    Unsubscribe session σ = Returned tt σ' ∧
    new_effects σ σ' = [DidCloseChan c; DidDelete session] ∧
    channels (hub σ') = delete session (channels (hub σ)) ∧
    channels (hub σ') !! session = None ∧
    chans σ' !! c = Some (mkChan true (delivered ch)) ∧
    (∀ k, ¬ registered σ' k c).
Proof.
  intros Hwf Hreg.
  destruct (wf_open _ Hwf _ _ Hreg) as (c' & [= <-] & ch & Hch & Hcl).
  eexists ch, _. split; [done|]. split.
  { by apply (Unsubscribe_registered session c ch). }
  simpl. split; [|split; [done|split; [apply lookup_delete_eq|split]]].
  - apply new_effects_app. simpl. by rewrite <- app_assoc.
  - apply list_lookup_insert_eq. by eapply lookup_lt_Some.
  - intros k Hk. unfold registered in Hk. simpl in Hk.
    apply lookup_delete_Some in Hk as [Hne Hk].
    apply Hne. by apply (wf_inj _ Hwf _ _ c).
Qed.

Lemma Unsubscribe_closes_then_removes_witness :
  wf two_subscribers ∧ registered two_subscribers "A" 0 ∧
  ∃ ch σ',
    chans two_subscribers !! 0 = Some ch ∧
    Unsubscribe "A" two_subscribers = Returned tt σ' ∧
    new_effects two_subscribers σ' = [DidCloseChan 0; DidDelete "A"] ∧
    channels (hub σ') = delete "A" (channels (hub two_subscribers)) ∧
    channels (hub σ') !! "A" = None ∧
    chans σ' !! 0 = Some (mkChan true (delivered ch)) ∧
    (∀ k, ¬ registered σ' k 0).
Proof.
  split; [exact wf_two_subscribers|]. split; [reflexivity|].
  apply (Unsubscribe_closes_then_removes "A" 0 two_subscribers);
    [exact wf_two_subscribers|reflexivity].
Defined.

(** ** Shutdown *)

(** C8.  [Shutdown] sets the flag and does nothing else: the connection of
    the hub, the registry, every channel and the trace of effects (so no
    close of the connection or of a channel) are as before. *)
Theorem Shutdown_only_sets_the_flag σ :
  ∃ σ',
    Shutdown σ = Returned tt σ' ∧
    didShutdown (hub σ') = true ∧
    inputConnection (hub σ') = inputConnection (hub σ) ∧
    channels (hub σ') = channels (hub σ) ∧
    chans σ' = chans σ ∧
    trace σ' = trace σ.
Proof. by eexists. Qed.

(** ** Subscribe *)

(** C9.  For a session key that is already registered, with channel [old],
    [Subscribe] allocates a channel that did not exist, stores it under
    the key and returns it.  Its only effect is the store: the channel
    [old] is not closed, it is as it was, and no key of the registry leads
    to it any more. *)
Theorem Subscribe_again_replaces session old σ :
  wf σ →
  registered σ session old →
  ∃ new σ',
    Subscribe session σ = Returned new σ' ∧
    chans σ !! new = None ∧
    chans σ' !! new = Some (mkChan false []) ∧
    registered σ' session new ∧
    new_effects σ σ' = [DidStore session (chanEvent new)] ∧
    chans σ' !! old = chans σ !! old ∧
    open_at σ' old ∧
    (∀ k, ¬ registered σ' k old) ∧
    (∀ k, k ≠ session → channels (hub σ') !! k = channels (hub σ) !! k).
Proof.
  intros Hwf Hreg.
  destruct (wf_open _ Hwf _ _ Hreg) as (c' & [= <-] & ch & Hch & Hcl).
  pose proof (lookup_lt_Some _ _ _ Hch) as Hlt.
  eexists _, _. split; [apply Subscribe_eq|]. simpl.
  assert (Hold : (chans σ ++ [mkChan false []]) !! old = chans σ !! old).
  { by rewrite lookup_app_l. }
  split; [by apply lookup_ge_None|].
  split; [by rewrite lookup_app_r, Nat.sub_diag|].
  split; [apply lookup_insert_eq|].
  split; [by apply new_effects_app|].
  split; [done|].
  split; [exists ch; simpl; by rewrite Hold|].
  split.
  - intros k Hk. unfold registered in Hk. simpl in Hk.
    destruct (decide (session = k)) as [<-|Hne].
    + rewrite lookup_insert_eq in Hk. injection Hk. lia.
    + rewrite lookup_insert_ne in Hk by done.
      apply Hne. by apply (wf_inj _ Hwf _ _ old).
  - intros k Hne. by apply lookup_insert_ne.
Qed.

Lemma Subscribe_again_replaces_witness :
  wf two_subscribers ∧ registered two_subscribers "A" 0 ∧
  ∃ new σ',
    Subscribe "A" two_subscribers = Returned new σ' ∧
    chans two_subscribers !! new = None ∧
    chans σ' !! new = Some (mkChan false []) ∧
    registered σ' "A" new ∧
    new_effects two_subscribers σ' = [DidStore "A" (chanEvent new)] ∧
    chans σ' !! 0 = chans two_subscribers !! 0 ∧
    open_at σ' 0 ∧
    (∀ k, ¬ registered σ' k 0) ∧
    (∀ k, k ≠ "A" → channels (hub σ') !! k = channels (hub two_subscribers) !! k).
Proof.
  split; [exact wf_two_subscribers|]. split; [reflexivity|].
  apply (Subscribe_again_replaces "A" 0 two_subscribers);
    [exact wf_two_subscribers|reflexivity].
Defined.

(** ** What a drain leaves in the trace *)

Lemma log_lines_drains_of entries :
  (∀ kv, kv ∈ entries → ∃ c, kv.2 = chanEvent c) →
  log_lines (drains_of entries) = shutting_down <$> entries.*1.
Proof.
  induction entries as [|[k v] entries IH]; intros Hch; [done|].
  destruct (Hch (k, v)) as [c Hv]; [left|]. simpl in Hv. subst v. simpl.
  f_equal. apply IH. intros kv Hin. apply Hch. by right.
Qed.

Lemma frames_read_drains_of entries : frames_read (drains_of entries) = [].
Proof.
  induction entries as [|[k [c|tag]] entries IH]; [done|by simpl..].
Qed.

Lemma closes_of_drains_of entries : closes_of (drains_of entries) = [].
Proof.
  induction entries as [|[k [c|tag]] entries IH]; [done|by simpl..].
Qed.

(** ** Teardown *)

(** C4.  When [Dispatch] leaves its loop, the flag is set, and from then
    on it reads no frame.  For every entry that the registry holds at that
    moment, once and in the order of Range, it logs the key, closes the
    channel and deletes the key; afterwards the registry is empty and every
    channel that was registered is closed.  Then it closes the connection,
    once, and returns. *)
Theorem Dispatch_teardown `{RangeOrder} sched σ σ1 :
  wf σ →
  Dispatch_loop sched σ = Returned tt σ1 →
  let entries := range_order (channels (hub σ1)) in
  didShutdown (hub σ1) = true ∧
  ∃ σ' err,
    Dispatch sched σ = Returned err σ' ∧
    new_effects σ1 σ' = drains_of entries ++ [DidClose] ∧
    frames_read (new_effects σ1 σ') = [] ∧
    log_lines (new_effects σ1 σ') = shutting_down <$> entries.*1 ∧
    NoDup entries.*1 ∧
    (∀ k, k ∈ entries.*1 ↔ is_Some (channels (hub σ1) !! k)) ∧
    closes_of (new_effects σ1 σ') = [tt] ∧
    channels (hub σ') = ∅ ∧
    (∀ k c, registered σ1 k c →
       ∃ ch, chans σ1 !! c = Some ch ∧
             chans σ' !! c = Some (mkChan true (delivered ch))).
Proof.
  intros Hwf Hloop entries. split; [by apply (loop_exit sched σ)|].
  destruct (Dispatch_after_loop sched σ σ1 Hwf Hloop)
    as (σ2 & Hrun & Hwf1 & _ & Hempty & Htrace & Hin & _).
  assert (Hnew : new_effects σ1 (emit DidClose σ2) = drains_of entries ++ [DidClose]).
  { apply new_effects_app. simpl. by rewrite Htrace, <- app_assoc. }
  eexists (emit DidClose σ2), _. split; [exact Hrun|]. split; [done|]. rewrite Hnew.
  split; [|split; [|split; [|split; [|split; [|split; [done|]]]]]].
  - unfold frames_read. rewrite omap_app. fold (frames_read (drains_of entries)).
    by rewrite frames_read_drains_of.
  - unfold log_lines. rewrite omap_app. fold (log_lines (drains_of entries)).
    rewrite log_lines_drains_of; [by rewrite app_nil_r|].
    intros kv Hkv. destruct (range_order_open σ1 kv Hwf1 Hkv) as (c & Hc & _). eauto.
  - apply NoDup_range_order_keys.
  - apply range_order_keys.
  - unfold closes_of. rewrite omap_app. fold (closes_of (drains_of entries)).
    by rewrite closes_of_drains_of.
  - intros k c Hk.
    destruct (wf_open _ Hwf1 _ _ Hk) as (c' & [= <-] & ch & Hch & Hcl).
    exists ch. split; [done|]. simpl. by rewrite (Hin k c Hk), Hch.
Qed.

Lemma Dispatch_teardown_witness :
  wf two_subscribers ∧
  ∃ σ1,
    Dispatch_loop [Recv (text_frame "hello"); Call CallShutdown;
                   Recv (text_frame "late")] two_subscribers = Returned tt σ1 ∧
    ∃ σ' err,
      Dispatch [Recv (text_frame "hello"); Call CallShutdown;
                Recv (text_frame "late")] two_subscribers = Returned err σ' ∧
      frames_read (new_effects σ1 σ') = [] ∧
      log_lines (new_effects σ1 σ') = ["shutting down: A"; "shutting down: B"] ∧
      closes_of (new_effects σ1 σ') = [tt] ∧
      channels (hub σ') = ∅.
Proof.
  split; [exact wf_two_subscribers|].
  eexists. split; [vm_compute; reflexivity|].
  edestruct (Dispatch_teardown [Recv (text_frame "hello"); Call CallShutdown;
                               Recv (text_frame "late")] two_subscribers)
    as (_ & σ' & err & Hrun & _ & Hreads & Hlog & _ & _ & Hcloses & Hempty & _);
    [exact wf_two_subscribers|vm_compute; reflexivity|].
  exists σ', err. split; [exact Hrun|]. split; [exact Hreads|].
  split; [exact Hlog|]. split; [exact Hcloses|exact Hempty].
Defined.

(** ** Broadcast *)

Lemma receive_nil (x : option chan) : receive [] <$> x = x.
Proof. destruct x as [[cl del]|]; [|done]. unfold receive. simpl. by rewrite app_nil_r. Qed.

Lemma receive_cons e es (x : option chan) :
  receive es <$> (receive [e] <$> x) = receive (e :: es) <$> x.
Proof.
  destruct x as [[cl del]|]; [|done]. unfold receive. simpl.
  by rewrite <- app_assoc.
Qed.

Lemma Dispatch_step `{RangeOrder} f sched σ σ1 :
  didShutdown (hub σ) = false →
  iteration f σ = Returned tt σ1 →
  Dispatch (Recv f :: sched) σ = Dispatch sched σ1.
Proof.
  intros Hflag Hiter. unfold Dispatch, mbind at 1 4, M_bind, bind at 1 3.
  cbn [Dispatch_loop]. rewrite Hflag.
  by rewrite (bind_Returned _ _ _ _ _ Hiter).
Qed.

Lemma Dispatch_step_call `{RangeOrder} c sched σ σ1 :
  didShutdown (hub σ) = false →
  run_call c σ = Returned tt σ1 →
  Dispatch (Call c :: sched) σ = Dispatch sched σ1.
Proof.
  intros Hflag Hcall. unfold Dispatch, mbind at 1 4, M_bind, bind at 1 3.
  cbn [Dispatch_loop]. rewrite Hflag.
  by rewrite (bind_Returned _ _ _ _ _ Hcall).
Qed.

Lemma runs_Dispatch `{RangeOrder} sched σ σ' :
  runs sched σ σ' → ∀ rest, Dispatch (sched ++ rest) σ = Dispatch rest σ'.
Proof.
  induction 1 as [σ|f sched σ σ1 σ' Hflag Hiter _ IH|c sched σ σ1 σ' Hflag Hcall _ IH];
    intros rest; [done|..]; simpl.
  - by rewrite (Dispatch_step f _ σ σ1).
  - by rewrite (Dispatch_step_call c _ σ σ1).
Qed.

Lemma runs_text_frames `{RangeOrder} payloads σ :
  wf σ →
  didShutdown (hub σ) = false →
  ∃ σ',
    runs (Recv ∘ text_frame <$> payloads) σ σ' ∧
    hub σ' = hub σ ∧ wf σ' ∧
    trace σ' = trace σ ++
      flat_map (fun p => DidRead (text_frame p)
                  :: sends_of p (range_order (channels (hub σ)))) payloads ∧
    (∀ k c, registered σ k c →
       chans σ' !! c = receive (mkEvent <$> payloads) <$> chans σ !! c) ∧
    (∀ c, (∀ k, ¬ registered σ k c) → chans σ' !! c = chans σ !! c).
Proof.
  revert σ. induction payloads as [|p payloads IH]; intros σ Hwf Hflag.
  - exists σ. split; [constructor|]. split; [done|]. split; [done|].
    split; [by rewrite app_nil_r|]. split; [|done].
    intros k c _. by rewrite receive_nil.
  - destruct (iteration_text p σ Hwf) as (σ1 & Hiter & Hhub1 & Htrace1 & Hin1 & Hout1 & Hwf1).
    destruct (IH σ1 Hwf1) as (σ' & Hrun & Hhub & Hwf' & Htrace & Hin & Hout).
    { by rewrite Hhub1. }
    exists σ'. split; [|split; [congruence|split; [done|split; [|split]]]].
    + rewrite fmap_cons. by apply (runs_Recv _ _ σ σ1).
    + rewrite Htrace, Htrace1, Hhub1. simpl. by rewrite <- app_assoc.
    + intros k c Hk. rewrite (Hin k c) by (unfold registered; by rewrite Hhub1).
      rewrite (Hin1 k c Hk). rewrite fmap_cons. apply receive_cons.
    + intros c Hc. rewrite (Hout c); [by apply Hout1|].
      intros k. unfold registered. rewrite Hhub1. apply Hc.
Qed.

(** A subscriber that no call of the schedule names stays registered with
    its channel, and the channel receives the events of the text frames of
    the schedule and nothing else. *)
Lemma runs_subscriber `{RangeOrder} sched σ σ' k c :
  runs sched σ σ' →
  wf σ →
  registered σ k c →
  Forall (fun t => ¬ names k t) sched →
  wf σ' ∧ registered σ' k c ∧
  chans σ' !! c = receive (mkEvent <$> payloads_of sched) <$> chans σ !! c.
Proof.
  induction 1 as [σ|f sched σ σ1 σ' Hflag Hiter _ IH|c0 sched σ σ1 σ' Hflag Hcall _ IH];
    intros Hwf Hreg Hnames.
  - split; [done|]. split; [done|]. by rewrite receive_nil.
  - apply Forall_cons in Hnames as [_ Hnames].
    assert (Hwf1 : wf σ1).
    { pose proof (wf_iteration f σ Hwf) as Hw. by rewrite Hiter in Hw. }
    assert (Hstep : registered σ1 k c ∧
              chans σ1 !! c =
                receive (mkEvent <$> payloads_of [Recv f]) <$> chans σ !! c).
    { unfold payloads_of, is_text. simpl. destruct f as [ty p [e|]]; simpl.
      - rewrite iteration_stop in Hiter by (left; eauto).
        injection Hiter as <-. split; [done|]. by rewrite receive_nil.
      - case_bool_decide as Hty.
        + subst ty.
          destruct (iteration_text p σ Hwf) as (σ1' & Hiter' & Hhub & _ & Hin & _).
          change (mkFrame TextMessage p None) with (text_frame p) in Hiter.
          rewrite Hiter' in Hiter. injection Hiter as ->.
          split; [unfold registered; by rewrite Hhub|by apply (Hin k)].
        + rewrite iteration_stop in Hiter by (by right).
          injection Hiter as <-. split; [done|]. by rewrite receive_nil. }
    destruct Hstep as [Hreg1 Hch1].
    destruct (IH Hwf1 Hreg1 Hnames) as (Hwf' & Hreg' & Hch').
    split; [done|]. split; [done|]. rewrite Hch', Hch1.
    change (Recv f :: sched) with ([Recv f] ++ sched).
    unfold payloads_of at 3. rewrite omap_app. fold (payloads_of [Recv f]) (payloads_of sched).
    rewrite fmap_app. destruct (chans σ !! c) as [[cl del]|]; [|done].
    unfold receive. simpl. by rewrite <- app_assoc.
  - apply Forall_cons in Hnames as [Hname Hnames].
    assert (Hwf1 : wf σ1).
    { pose proof (wf_run_call c0 σ Hwf) as Hw. by rewrite Hcall in Hw. }
    assert (Hstep : registered σ1 k c ∧ chans σ1 !! c = chans σ !! c).
    { destruct (wf_open _ Hwf _ _ Hreg) as (c' & [= <-] & ch & Hch & Hcl).
      destruct c0 as [session|session|]; cbn [run_call] in Hcall; simpl in Hname.
      - rewrite (bind_Returned _ _ _ _ _ (Subscribe_eq session σ)) in Hcall.
        injection Hcall as <-. unfold registered. simpl. split.
        + by rewrite lookup_insert_ne.
        + apply lookup_app_l. by eapply lookup_lt_Some.
      - destruct (Unsubscribe_cases session σ)
          as [[e He]|(c1 & ch1 & Hreg1 & Hch1 & Hcl1)]; [congruence|].
        rewrite (Unsubscribe_registered _ _ _ _ Hreg1 Hch1 Hcl1) in Hcall.
        injection Hcall as <-. unfold registered. simpl. split.
        + by rewrite lookup_delete_ne.
        + apply list_lookup_insert_ne. intros <-.
          apply Hname. by apply (wf_inj _ Hwf _ _ c1).
      - injection Hcall as <-. done. }
    destruct Hstep as [Hreg1 Hch1].
    destruct (IH Hwf1 Hreg1 Hnames) as (Hwf' & Hreg' & Hch').
    split; [done|]. split; [done|]. by rewrite Hch', Hch1.
Qed.

(** C2.  While the flag is clear, [Dispatch] reads the text frames that
    the connection delivers one after the other, and for each of them
    sends one event with the payload of the frame on every channel of the
    registry, in the order of Range, before it reads the next.  So every
    registered channel has received exactly the events of these frames, in
    the order in which the frames arrived, and no other channel has
    received anything; the loop then goes on with the rest of the schedule.
    The same holds for one subscriber when calls of [Subscribe],
    [Unsubscribe] and [Shutdown] by other goroutines are interleaved with
    the frames: as long as no call names its session, its channel receives
    exactly the events of the text frames read, in the order of arrival. *)
Theorem Dispatch_text_frames `{RangeOrder} :
  (∀ payloads σ,
     wf σ →
     didShutdown (hub σ) = false →
     ∃ σ',
       (∀ rest, Dispatch ((Recv ∘ text_frame <$> payloads) ++ rest) σ
              = Dispatch rest σ') ∧
       hub σ' = hub σ ∧
       wf σ' ∧
       new_effects σ σ' =
         flat_map (fun p => DidRead (text_frame p)
                     :: sends_of p (range_order (channels (hub σ)))) payloads ∧
       (∀ k c, registered σ k c →
          ∃ ch, chans σ !! c = Some ch ∧
                chans σ' !! c =
                  Some (mkChan false (delivered ch ++ (mkEvent <$> payloads)))) ∧
       (∀ c, (∀ k, ¬ registered σ k c) → chans σ' !! c = chans σ !! c)) ∧
  (∀ sched σ σ' k c,
     wf σ →
     runs sched σ σ' →
     registered σ k c →
     Forall (fun t => ¬ names k t) sched →
     (∀ rest, Dispatch (sched ++ rest) σ = Dispatch rest σ') ∧
     registered σ' k c ∧
     ∃ ch, chans σ !! c = Some ch ∧
           chans σ' !! c =
             Some (mkChan false (delivered ch ++ (mkEvent <$> payloads_of sched)))).
Proof.
  split.
  - intros payloads σ Hwf Hflag.
    destruct (runs_text_frames payloads σ Hwf Hflag)
      as (σ' & Hrun & Hhub & Hwf' & Htrace & Hin & Hout).
    exists σ'. split; [by apply runs_Dispatch|]. split; [done|]. split; [done|].
    split; [by apply new_effects_app|]. split; [|done].
    intros k c Hk. destruct (wf_open _ Hwf _ _ Hk) as (c' & [= <-] & ch & Hch & Hcl).
    exists ch. split; [done|]. rewrite (Hin k c Hk), Hch. simpl.
    unfold receive. by rewrite Hcl.
  - intros sched σ σ' k c Hwf Hruns Hreg Hnames.
    destruct (runs_subscriber sched σ σ' k c Hruns Hwf Hreg Hnames)
      as (_ & Hreg' & Hch').
    split; [by apply runs_Dispatch|]. split; [done|].
    destruct (wf_open _ Hwf _ _ Hreg) as (c' & [= <-] & ch & Hch & Hcl).
    exists ch. split; [done|]. rewrite Hch', Hch. simpl.
    unfold receive. by rewrite Hcl.
Qed.

Lemma Dispatch_text_frames_witness :
  (wf two_subscribers ∧ didShutdown (hub two_subscribers) = false ∧
   ∃ σ',
     (∀ rest, Dispatch ((Recv ∘ text_frame <$> ["hello"; "world"]) ++ rest)
                two_subscribers = Dispatch rest σ') ∧
     chans σ' !! 0 = Some (mkChan false [mkEvent "hello"; mkEvent "world"]) ∧
     chans σ' !! 1 = Some (mkChan false [mkEvent "hello"; mkEvent "world"])) ∧
  (∃ σ',
     runs [Recv (text_frame "hello"); Call (CallUnsubscribe "B");
           Recv (text_frame "world"); Call (CallSubscribe "C")]
       two_subscribers σ' ∧
     registered two_subscribers "A" 0 ∧
     registered σ' "A" 0 ∧
     chans σ' !! 0 = Some (mkChan false [mkEvent "hello"; mkEvent "world"]) ∧
     chans σ' !! 1 = Some (mkChan true [mkEvent "hello"])).
Proof.
  pose proof (@Dispatch_text_frames map_to_list_order) as [Hburst Hrun].
  split.
  - split; [exact wf_two_subscribers|]. split; [reflexivity|].
    destruct (Hburst ["hello"; "world"] two_subscribers)
      as (σ' & Hdispatch & _ & _ & _ & Hin & _); [exact wf_two_subscribers|reflexivity|].
    exists σ'. split; [exact Hdispatch|].
    destruct (Hin "A" 0) as (chA & HA & HA'); [reflexivity|].
    destruct (Hin "B" 1) as (chB & HB & HB'); [reflexivity|].
    injection HA as <-. injection HB as <-. split; [exact HA'|exact HB'].
  - set (sched := [Recv (text_frame "hello"); Call (CallUnsubscribe "B");
                   Recv (text_frame "world"); Call (CallSubscribe "C")]).
    exists (final_state (Dispatch_loop sched two_subscribers)).
    assert (Hruns : runs sched two_subscribers
                      (final_state (Dispatch_loop sched two_subscribers))).
    { eapply runs_Recv; [reflexivity|vm_compute; reflexivity|].
      eapply runs_Call; [reflexivity|vm_compute; reflexivity|].
      eapply runs_Recv; [reflexivity|vm_compute; reflexivity|].
      eapply runs_Call; [reflexivity|vm_compute; reflexivity|].
      apply runs_nil. }
    split; [exact Hruns|]. split; [reflexivity|].
    destruct (Hrun _ two_subscribers _ "A" 0 wf_two_subscribers Hruns)
      as (_ & Hreg' & ch & Hch & Hch'); [reflexivity| |].
    { unfold sched. repeat (apply Forall_cons; split); try (by apply Forall_nil);
        simpl; first [by intros []|by intros [=]]. }
    injection Hch as <-. split; [exact Hreg'|]. split; [exact Hch'|].
    vm_compute. reflexivity.
Defined.

(** ** One teardown at most *)

Lemma quiet_log_lines es : Forall quiet es → log_lines es = [].
Proof.
  induction 1 as [|e es He _ IH]; [done|]. by destruct e.
Qed.

Lemma quiet_closes_of es : Forall quiet es → closes_of es = [].
Proof.
  induction 1 as [|e es He _ IH]; [done|]. by destruct e.
Qed.

#[global] Instance shutting_down_inj : Inj (=) (=) shutting_down.
Proof. intros k1 k2 Hk. unfold shutting_down in Hk. by simplify_eq/=. Qed.

(** Whatever the state, a drain does not close the connection and logs no
    line twice. *)
Lemma drain_logs_once entries σ :
  NoDup entries.*1 →
  ∃ es,
    trace (final_state (Range_from drain entries tt σ)) = trace σ ++ es ∧
    closes_of es = [] ∧
    NoDup (log_lines es) ∧
    log_lines es ⊆ shutting_down <$> entries.*1.
Proof.
  revert σ. induction entries as [|[key value] entries IH]; intros σ Hkeys.
  - exists []. split; [by rewrite app_nil_r|]. split; [done|].
    split; [constructor|done].
  - rewrite fmap_cons in Hkeys. apply NoDup_cons in Hkeys as [Hkey Hkeys].
    cbn [Range_from]. unfold drain at 1.
    set (σa := emit (DidLog (shutting_down key)) σ).
    destruct (Unsubscribe_cases key σa) as [[e He]|(c & ch & Hreg & Hch & Hcl)].
    + exists [DidLog (shutting_down key)]. split; [|split; [done|split]].
      * assert (Hd : (Info (shutting_down key);; Unsubscribe key;;
                        mret (true, tt)) σ = Panicked e σa).
        { erewrite bind_Returned; [|reflexivity]. by erewrite bind_Panicked. }
        by rewrite (bind_Panicked _ _ _ _ _ Hd).
      * apply NoDup_singleton.
      * intros x [->|[]%elem_of_nil]%elem_of_cons. left.
    + pose proof (Unsubscribe_registered key c ch σa Hreg Hch Hcl) as Hun.
      set (σb := mkProcess _ _ _) in Hun.
      destruct (IH σb Hkeys) as (es & Htrace & Hcloses & Hnodup & Hsub).
      exists (DidLog (shutting_down key) :: DidCloseChan c :: DidDelete key :: es).
      split; [|split; [done|split]].
      * assert (Hd : (Info (shutting_down key);; Unsubscribe key;;
                        mret (true, tt)) σ = Returned (true, tt) σb).
        { erewrite bind_Returned; [|reflexivity].
          by erewrite bind_Returned; [|exact Hun]. }
        rewrite (bind_Returned _ _ _ _ _ Hd). cbv beta iota.
        etrans; [exact Htrace|]. simpl. by rewrite <- !app_assoc.
      * simpl. apply NoDup_cons. split; [|done].
        intros (k & Hk%(inj _) & Hin)%Hsub%list_elem_of_fmap. by subst.
      * simpl. intros x [->|Hx]%elem_of_cons; [left|right]. by apply Hsub.
Qed.

Section once.
Context `{RangeOrder}.

(** Whatever the state and the schedule, a call of [Dispatch] closes the
    connection at most once and logs no line twice. *)
Lemma Dispatch_effects_once sched σ :
  let es := new_effects σ (final_state (Dispatch sched σ)) in
  length (closes_of es) ≤ 1 ∧ NoDup (log_lines es).
Proof.
  destruct (quiet_loop sched σ) as (es1 & Ht1 & Hq1).
  pose proof (quiet_log_lines _ Hq1) as Hl1.
  pose proof (quiet_closes_of _ Hq1) as Hc1.
  unfold Dispatch.
  destruct (Dispatch_loop sched σ) as [[] σ1|e σ1|σ1] eqn:Hloop; simpl in Ht1.
  - rewrite (bind_Returned _ _ _ _ _ Hloop).
    destruct (drain_logs_once (range_order (channels (hub σ1))) σ1)
      as (es2 & Ht2 & Hc2 & Hn2 & _); [apply NoDup_range_order_keys|].
    change (Range drain tt) with
      (fun σ => Range_from drain (range_order (channels (hub σ))) tt σ).
    destruct (Range_from drain (range_order (channels (hub σ1))) tt σ1)
      as [[] σ2|e σ2|σ2] eqn:Hdrain; simpl in Ht2.
    + rewrite (bind_Returned _ _ σ1 tt σ2) by done.
      erewrite bind_Returned; [|reflexivity]. simpl.
      rewrite (new_effects_app σ _ (es1 ++ es2 ++ [DidClose])).
      * unfold closes_of, log_lines. rewrite !omap_app.
        fold (closes_of es1) (closes_of es2) (log_lines es1) (log_lines es2).
        rewrite Hc1, Hc2, Hl1. simpl. by rewrite app_nil_r.
      * simpl. by rewrite Ht2, Ht1, <- !app_assoc.
    + rewrite (bind_Panicked _ _ σ1 e σ2) by done. simpl.
      rewrite (new_effects_app σ _ (es1 ++ es2)).
      * unfold closes_of, log_lines. rewrite !omap_app.
        fold (closes_of es1) (closes_of es2) (log_lines es1) (log_lines es2).
        rewrite Hc1, Hc2, Hl1. simpl. split; [lia|done].
      * by rewrite Ht2, Ht1, <- !app_assoc.
    + rewrite (bind_Blocked _ _ σ1 σ2) by done. simpl.
      rewrite (new_effects_app σ _ (es1 ++ es2)).
      * unfold closes_of, log_lines. rewrite !omap_app.
        fold (closes_of es1) (closes_of es2) (log_lines es1) (log_lines es2).
        rewrite Hc1, Hc2, Hl1. simpl. split; [lia|done].
      * by rewrite Ht2, Ht1, <- !app_assoc.
  - rewrite (bind_Panicked _ _ _ _ _ Hloop). simpl.
    rewrite (new_effects_app σ _ es1 Ht1), Hc1, Hl1. simpl. split; [lia|constructor].
  - rewrite (bind_Blocked _ _ _ _ Hloop). simpl.
    rewrite (new_effects_app σ _ es1 Ht1), Hc1, Hl1. simpl. split; [lia|constructor].
Qed.

(** The connection of the hub is the same after the drain. *)
Lemma same_conn_drain : respects same_conn (Range drain tt).
Proof.
  apply respects_Range; [apply _|]. intros key value u.
  apply respects_bind; [apply _|done|]. intros _.
  apply respects_bind; [apply _| |intros _; apply respects_ret; apply _].
  apply respects_Unsubscribe; [apply _|..].
  - intros c σ. destruct (close_cases c σ) as [[? ->]|(? & _ & _ & ->)]; done.
  - by intros key' σ.
Qed.

(** Whatever the state and the schedule, the error that [Dispatch]
    returns is the result of [Close] joined with nil. *)
Lemma Dispatch_returns_close_error sched σ err σ' :
  Dispatch sched σ = Returned err σ' →
  err = errors_Join [closeErr (inputConnection (hub σ)); None].
Proof.
  unfold Dispatch.
  intros ([] & σ1 & Hloop & Hrest)%bind_Returned_inv.
  apply bind_Returned_inv in Hrest as ([] & σ2 & Hdrain & Hrest).
  apply bind_Returned_inv in Hrest as (closing & σ3 & Hclose & Hret).
  injection Hclose as <- <-. injection Hret as <- <-.
  pose proof (same_conn_loop sched σ) as Hc1. rewrite Hloop in Hc1.
  pose proof (same_conn_drain σ1) as Hc2. rewrite Hdrain in Hc2.
  unfold same_conn in *. simpl in *. by rewrite Hc2, Hc1.
Qed.
End once.

(** ** The latch *)

Lemma Shutdown_again_eq n σ : Shutdown_again n σ = Shutdown σ.
Proof.
  revert σ. induction n as [|n IH]; intros σ; [done|]. cbn [Shutdown_again].
  erewrite bind_Returned; [|reflexivity]. by rewrite IH.
Qed.

(** C5.  [Shutdown] is an idempotent one-way latch.  Any number of calls in
    a row leaves the process in the state that one call leaves it in, with
    the flag set.  A call of the hub, [Dispatch] included, that starts with
    the flag set ends with the flag set.  And whatever the state and
    however many calls of [Shutdown] the other goroutines make while
    [Dispatch] runs, [Dispatch] closes the connection at most once and
    logs no drained session twice. *)
Theorem Shutdown_is_a_latch `{RangeOrder} :
  (∀ n σ, Shutdown_again n σ = Shutdown σ) ∧
  (∀ σ, didShutdown (hub (final_state (Shutdown σ))) = true) ∧
  (∀ o σ, didShutdown (hub σ) = true →
          didShutdown (hub (run_operation o σ)) = true) ∧
  (∀ sched σ,
     let es := new_effects σ (final_state (Dispatch sched σ)) in
     length (closes_of es) ≤ 1 ∧ NoDup (log_lines es)).
Proof.
  split; [apply Shutdown_again_eq|]. split; [done|]. split.
  - intros [c|sched] σ; [apply latched_run_call|apply latched_Dispatch].
  - apply Dispatch_effects_once.
Qed.

(** ** The error that Dispatch returns *)

(** C10.  If the loop of [Dispatch] is left without a failed read or a
    frame that is not a text frame having been met, in a well-formed state
    (so that no broadcast met an entry that is not a channel), and [Close]
    returns nil, then [Dispatch] returns, and returns nil. *)
Theorem Dispatch_external_shutdown_returns_nil `{RangeOrder} sched σ σ1 :
  wf σ →
  closeErr (inputConnection (hub σ)) = None →
  Forall (fun t => ¬ stops t) sched →
  Dispatch_loop sched σ = Returned tt σ1 →
  ∃ σ', Dispatch sched σ = Returned None σ'.
Proof.
  intros Hwf Hclose _ Hloop.
  destruct (Dispatch_after_loop sched σ σ1 Hwf Hloop) as (σ2 & Hrun & _).
  exists (emit DidClose σ2). by rewrite Hrun, Hclose.
Qed.

Lemma text_frame_goes_on p : ¬ stops (Recv (text_frame p)).
Proof. by intros [[e [=]]|Hty]. Qed.

Lemma Dispatch_external_shutdown_returns_nil_witness :
  ∃ σ',
    Dispatch [Recv (text_frame "hello"); Call CallShutdown;
              Recv (text_frame "world")] two_subscribers = Returned None σ'.
Proof.
  apply (Dispatch_external_shutdown_returns_nil _ two_subscribers
           (final_state
              (Dispatch_loop [Recv (text_frame "hello"); Call CallShutdown;
                              Recv (text_frame "world")] two_subscribers))).
  - exact wf_two_subscribers.
  - reflexivity.
  - repeat constructor; first [apply text_frame_goes_on | by intros []].
  - vm_compute. reflexivity.
Defined.

(** C1.  What [Dispatch] does with a failed read.  Sessions A and B are
    subscribed and [Close] will return nil.  The connection delivers the
    text frame "hello" and then fails with the error [e], whatever [e] is.
    [Dispatch] broadcasts "hello", reads the failure, tears down and
    returns nil: the error of the read is not in what it returns. *)
Theorem Dispatch_drops_the_read_error (e : error) :
  ∃ σ',
    Dispatch [Recv (text_frame "hello"); Recv (mkFrame (-1) "" (Some e))]
      two_subscribers = Returned None σ' ∧
    frames_read (new_effects two_subscribers σ') =
      [text_frame "hello"; mkFrame (-1) "" (Some e)] ∧
    closes_of (new_effects two_subscribers σ') = [tt].
Proof.
  eexists. split; [vm_compute; reflexivity|]. split; vm_compute; reflexivity.
Qed.

(** A frame that is not a text frame stops the loop in the same way, and
    no error is made for it. *)
Lemma Dispatch_binary_frame_returns_nil :
  ∃ σ', Dispatch [Recv binary] two_subscribers = Returned None σ'.
Proof. eexists. vm_compute. reflexivity. Qed.

(** A registry entry that is not a channel stops the loop, and the drain
    then panics on that entry: [Dispatch] does not return. *)
Lemma Dispatch_corrupted_entry_panics :
  ∃ σ',
    Dispatch [Recv (text_frame "hello")] corrupted =
      Panicked
        (errorString "found object that was not a event channel in event hub") σ' ∧
    didShutdown (hub σ') = true ∧
    closes_of (trace σ') = [].
Proof. eexists. split; [vm_compute; reflexivity|]. split; reflexivity. Qed.

(** ** createEventHub *)

(** The target of [errors.Is] on line 30 is a new variable: no error that
    [Dial] returned holds its address. *)
Lemma Dial_error_is_not_the_target o s err s' :
  Dial o s = (inr err, s') →
  errors_Is_DNSError err (next_addr s') = false.
Proof.
  destruct o as [c|host|why]; simpl; intros [= <- <-]; simpl; [|done].
  apply Nat.eqb_neq. lia.
Qed.

(** So the loop of lines 29 to 39 returns on its first iteration. *)
Lemma redial_returns_the_error network err s :
  errors_Is_DNSError err (next_addr s) = false →
  redial network (inr err) s = Some (inr err, network, (new_DNSError s).2).
Proof. intros Hno. destruct network; simpl; by rewrite Hno. Qed.

Lemma createEventHub_connects url c network s :
  createEventHub url (Connects c :: network) s =
  Some (inl (mkEventHub c ∅ false), network, fmt_Println url s).
Proof. by destruct network. Qed.

Lemma createEventHub_other_failure url why network s :
  ∃ s',
    createEventHub url (DialFails why :: network) s =
      Some (inr (OpError "dial" "tcp" (netError why)), network, s') ∧
    slept s' = slept s.
Proof. eexists. split; [by destruct network|done]. Qed.

(** C3.  What [createEventHub] does with a name-resolution failure.  The
    first [Dial] does not find the host.  Whatever the next calls of
    [Dial] would meet, [createEventHub] returns the error of the first
    one: it does not sleep, it logs nothing and it does not call [Dial]
    again. *)
Theorem createEventHub_does_not_retry url host network s :
  ∃ s',
    createEventHub url (NoSuchHost host :: network) s =
      Some (inr (OpError "dial" "tcp" (DNSError (next_addr s) host)),
            network, s') ∧
    slept s' = slept s ∧
    info s' = info s.
Proof.
  eexists. unfold createEventHub. cbn [Dial new_DNSError fmt_Println next_addr].
  rewrite redial_returns_the_error; [done|].
  simpl. apply Nat.eqb_neq. lia.
Qed.

(** Two failed lookups and then a reachable host: the hub is not made. *)
Lemma createEventHub_two_failed_lookups :
  createEventHub "ws://cardinal:4040/events"
    [NoSuchHost "cardinal"; NoSuchHost "cardinal"; Connects (mkConn None)]
    (mkStartup 0 [] [] []) =
  Some (inr (OpError "dial" "tcp" (DNSError 0 "cardinal")),
        [NoSuchHost "cardinal"; Connects (mkConn None)],
        mkStartup 2 [] [] ["ws://cardinal:4040/events"]).
Proof. reflexivity. Qed.

(** * Further properties *)

(** ** createEventHub *)

(** X1.  Whatever the first [Dial] meets and whatever the following ones
    would meet, [createEventHub] returns after that one [Dial]: it never
    sleeps and never logs, it prints the url, and it returns a hub with the
    dialed connection, an empty registry and a clear flag when the
    connection was made, and an error otherwise. *)
Theorem createEventHub_dials_once url o network s :
  ∃ r s',
    createEventHub url (o :: network) s = Some (r, network, s') ∧
    slept s' = slept s ∧
    info s' = info s ∧
    stdout s' = stdout s ++ [url] ∧
    match o with
    | Connects c => r = inl (mkEventHub c ∅ false)
    | NoSuchHost _ | DialFails _ => ∃ err, r = inr err
    end.
Proof.
  destruct o as [c|host|why].
  - exists (inl (mkEventHub c ∅ false)), (fmt_Println url s).
    rewrite createEventHub_connects. by repeat split.
  - eexists _, _. split.
    { unfold createEventHub. cbn [Dial new_DNSError fmt_Println next_addr].
      rewrite redial_returns_the_error; [done|].
      simpl. apply Nat.eqb_neq. lia. }
    simpl. eauto.
  - eexists _, _. split.
    { unfold createEventHub. cbn [Dial].
      by rewrite redial_returns_the_error. }
    simpl. eauto.
Qed.

(** ** Subscribe and Unsubscribe together *)

(** X2.  [Subscribe] followed by [Unsubscribe] for the same session always
    returns.  The registry is the one before without the session (so the
    same one, if the session was not registered), the channel that
    [Subscribe] made is closed and empty, and the channels that existed are
    as they were. *)
Theorem Subscribe_then_Unsubscribe session σ :
  ∃ σ',
    (Subscribe session ≫= fun _ => Unsubscribe session) σ = Returned tt σ' ∧
    channels (hub σ') = delete session (channels (hub σ)) ∧
    (channels (hub σ) !! session = None → channels (hub σ') = channels (hub σ)) ∧
    chans σ' = chans σ ++ [mkChan true []] ∧
    new_effects σ σ' =
      [DidStore session (chanEvent (length (chans σ)));
       DidCloseChan (length (chans σ)); DidDelete session].
Proof.
  eexists. split.
  { rewrite (bind_Returned _ _ _ _ _ (Subscribe_eq session σ)).
    apply (Unsubscribe_registered session (length (chans σ)) (mkChan false [])).
    - apply lookup_insert_eq.
    - simpl. by rewrite lookup_app_r, Nat.sub_diag.
    - done. }
  simpl. split; [apply delete_insert_eq|]. split; [|split].
  - intros Habsent. rewrite delete_insert_eq. by apply delete_id.
  - rewrite insert_app_r_alt by lia. by rewrite Nat.sub_diag.
  - apply new_effects_app. by rewrite <- !app_assoc.
Qed.

(** X3.  A second [Unsubscribe] for a session panics with "session not
    found": the first call returns, and the second call, made in the state
    that the first one leaves, panics and leaves that state as it is. *)
Theorem Unsubscribe_twice_panics session c σ :
  wf σ →
  registered σ session c →
  ∃ σ1,
    Unsubscribe session σ = Returned tt σ1 ∧
    Unsubscribe session σ1 = Panicked (errorString "session not found") σ1.
Proof.
  intros Hwf Hreg.
  destruct (wf_open _ Hwf _ _ Hreg) as (c' & [= <-] & ch & Hch & Hcl).
  eexists. split; [by apply (Unsubscribe_registered session c ch)|].
  unfold Unsubscribe. erewrite bind_Returned; [|reflexivity].
  simpl. by rewrite lookup_delete_eq.
Qed.

Lemma Unsubscribe_twice_panics_witness :
  wf two_subscribers ∧ registered two_subscribers "A" 0 ∧
  ∃ σ1,
    Unsubscribe "A" two_subscribers = Returned tt σ1 ∧
    Unsubscribe "A" σ1 = Panicked (errorString "session not found") σ1.
Proof.
  split; [exact wf_two_subscribers|]. split; [reflexivity|].
  apply (Unsubscribe_twice_panics "A" 0 two_subscribers);
    [exact wf_two_subscribers|reflexivity].
Defined.

(** X4.  [Subscribe] and [Unsubscribe] for one session leave every other
    session alone: whether the call returns or panics, another session is
    registered with the channel it had, and that channel is as it was. *)
Theorem other_sessions_untouched session k c σ :
  wf σ →
  k ≠ session →
  registered σ k c →
  (registered (final_state (Subscribe session σ)) k c ∧
   chans (final_state (Subscribe session σ)) !! c = chans σ !! c) ∧
  (registered (final_state (Unsubscribe session σ)) k c ∧
   chans (final_state (Unsubscribe session σ)) !! c = chans σ !! c).
Proof.
  intros Hwf Hne Hreg.
  destruct (wf_open _ Hwf _ _ Hreg) as (c' & [= <-] & ch & Hch & Hcl).
  split.
  - rewrite Subscribe_eq. unfold registered. simpl. split.
    + by rewrite lookup_insert_ne.
    + apply lookup_app_l. by eapply lookup_lt_Some.
  - destruct (Unsubscribe_cases session σ)
      as [[e ->]|(c1 & ch1 & Hreg1 & Hch1 & Hcl1)]; [done|].
    rewrite (Unsubscribe_registered _ _ _ _ Hreg1 Hch1 Hcl1).
    unfold registered. simpl. split.
    + by rewrite lookup_delete_ne.
    + apply list_lookup_insert_ne. intros <-.
      apply Hne. by apply (wf_inj _ Hwf _ _ c1).
Qed.

Lemma other_sessions_untouched_witness :
  wf two_subscribers ∧ "B" ≠ "A" ∧ registered two_subscribers "B" 1 ∧
  (registered (final_state (Subscribe "A" two_subscribers)) "B" 1 ∧
   chans (final_state (Subscribe "A" two_subscribers)) !! 1
     = chans two_subscribers !! 1) ∧
  (registered (final_state (Unsubscribe "A" two_subscribers)) "B" 1 ∧
   chans (final_state (Unsubscribe "A" two_subscribers)) !! 1
     = chans two_subscribers !! 1).
Proof.
  split; [exact wf_two_subscribers|]. split; [done|]. split; [reflexivity|].
  apply (other_sessions_untouched "A" "B" 1 two_subscribers);
    [exact wf_two_subscribers|done|reflexivity].
Defined.

(** ** Invariants of the hub *)

Lemma wf_Dispatch `{RangeOrder} sched : respects keeps_wf (Dispatch sched).
Proof.
  intros σ Hwf.
  destruct (Dispatch_loop sched σ) as [[] σ1|e σ1|σ1] eqn:Hloop.
  - destruct (Dispatch_after_loop sched σ σ1 Hwf Hloop)
      as (σ2 & -> & _ & _ & Hempty & _).
    split; unfold registered; simpl; rewrite Hempty.
    + intros k v Hk. by rewrite lookup_empty in Hk.
    + intros k1 k2 c Hk. by rewrite lookup_empty in Hk.
  - pose proof (wf_loop sched σ Hwf) as Hw. rewrite Hloop in Hw.
    unfold Dispatch. by rewrite (bind_Panicked _ _ _ _ _ Hloop).
  - pose proof (wf_loop sched σ Hwf) as Hw. rewrite Hloop in Hw.
    unfold Dispatch. by rewrite (bind_Blocked _ _ _ _ Hloop).
Qed.

Lemma wf_run_operation `{RangeOrder} o σ : wf σ → wf (run_operation o σ).
Proof. destruct o as [c|sched]; [apply wf_run_call|apply wf_Dispatch]. Qed.

(** X5.  The registry of a new hub is well-formed, and every call of the
    hub keeps it so, whether the call returns, panics or blocks: after any
    sequence of calls of [Subscribe], [Unsubscribe], [Shutdown] and
    [Dispatch], every entry of the registry is an open channel and no
    channel is stored under two keys. *)
Theorem registry_stays_well_formed `{RangeOrder} :
  (∀ c, wf (new_process c)) ∧
  (∀ os σ, wf σ → wf (run_operations os σ)).
Proof.
  split; [apply wf_new_process|].
  intros os. induction os as [|o os IH]; intros σ Hwf; [done|].
  simpl. by apply IH, wf_run_operation.
Qed.

Lemma registry_stays_well_formed_witness :
  wf (new_process (mkConn None)) ∧
  wf (run_operations
        [OpCall (CallSubscribe "A"); OpCall (CallUnsubscribe "B");
         OpDispatch [Recv (text_frame "hello"); Recv binary];
         OpCall (CallSubscribe "A")]
        (new_process (mkConn None))).
Proof.
  pose proof (@registry_stays_well_formed map_to_list_order) as [Hnew Hkeep].
  split; [apply Hnew|]. apply Hkeep, Hnew.
Defined.

(** ** Channels that are not registered *)

#[global] Instance keeps_orphan_preorder c : PreOrder (keeps_orphan c).
Proof.
  split.
  - by intros σ Hwf Ho.
  - intros σ1 σ2 σ3 H12 H23 Hwf Ho.
    destruct (H12 Hwf Ho) as (Hwf2 & Ho2 & E12).
    destruct (H23 Hwf2 Ho2) as (Hwf3 & Ho3 & E23).
    split; [done|]. split; [done|]. by rewrite E23.
Qed.

Section orphans.
Context `{RangeOrder}.

Lemma orphan_run_call c call : respects (keeps_orphan c) (run_call call).
Proof.
  intros σ Hwf [[ch Hch] Hun].
  split; [by apply wf_run_call|].
  destruct call as [session|session|]; cbn [run_call].
  - rewrite (bind_Returned _ _ _ _ _ (Subscribe_eq session σ)).
    pose proof (lookup_lt_Some _ _ _ Hch) as Hlt.
    assert (Hsame : (chans σ ++ [mkChan false []]) !! c = chans σ !! c)
      by by apply lookup_app_l.
    simpl. split; [split|done].
    + simpl. rewrite Hsame. eauto.
    + intros k Hk. unfold registered in Hk. simpl in Hk.
      destruct (decide (session = k)) as [<-|Hne].
      * rewrite lookup_insert_eq in Hk. injection Hk. lia.
      * rewrite lookup_insert_ne in Hk by done. by apply (Hun k).
  - destruct (Unsubscribe_cases session σ)
      as [[e ->]|(c1 & ch1 & Hreg1 & Hch1 & Hcl1)]; [by split; [split; eauto|]|].
    rewrite (Unsubscribe_registered _ _ _ _ Hreg1 Hch1 Hcl1). simpl.
    assert (Hne : c1 ≠ c) by (intros ->; by apply (Hun session)).
    assert (Hsame : <[c1 := shut ch1]> (chans σ) !! c = chans σ !! c)
      by by apply list_lookup_insert_ne.
    split; [split|done].
    + simpl. rewrite Hsame. eauto.
    + intros k Hk. unfold registered in Hk. simpl in Hk.
      apply lookup_delete_Some in Hk as [_ Hk]. by apply (Hun k).
  - simpl. by split; [split; eauto|].
Qed.

Lemma orphan_iteration c f : respects (keeps_orphan c) (iteration f).
Proof.
  intros σ Hwf [[ch Hch] Hun].
  split; [by apply wf_iteration|].
  assert (Hstop : is_Some (readErr f) ∨ messageType f ≠ TextMessage →
            orphan (final_state (iteration f σ)) c ∧
            chans (final_state (iteration f σ)) !! c = chans σ !! c).
  { intros Hs. rewrite iteration_stop by done. simpl. by split; [split; eauto|]. }
  destruct f as [ty p [e|]]; [apply Hstop; left; eauto|].
  destruct (decide (ty = TextMessage)) as [->|Hty]; [|apply Hstop; by right].
  destruct (iteration_text p σ Hwf) as (σ' & Hrun & Hhub & _ & _ & Hout & _).
  change (mkFrame TextMessage p None) with (text_frame p). rewrite Hrun. simpl.
  rewrite (Hout c Hun). split; [split|done].
  - rewrite (Hout c Hun). eauto.
  - intros k. unfold registered. rewrite Hhub. apply Hun.
Qed.

Lemma orphan_loop c sched : respects (keeps_orphan c) (Dispatch_loop sched).
Proof.
  apply respects_Dispatch_loop;
    [apply _|intros; apply orphan_run_call|intros; apply orphan_iteration].
Qed.

Lemma orphan_Dispatch c sched : respects (keeps_orphan c) (Dispatch sched).
Proof.
  intros σ Hwf Ho. split; [by apply wf_Dispatch|].
  pose proof (orphan_loop c sched σ Hwf Ho) as Hl.
  destruct (Dispatch_loop sched σ) as [[] σ1|e σ1|σ1] eqn:Hloop; simpl in Hl.
  - destruct Hl as (_ & [Hsome1 Hun1] & E1).
    destruct (Dispatch_after_loop sched σ σ1 Hwf Hloop)
      as (σ2 & -> & _ & _ & Hempty & _ & _ & Hout).
    simpl. rewrite (Hout c Hun1), E1. split; [split|done].
    + simpl. rewrite (Hout c Hun1), E1. by destruct Ho.
    + intros k Hk. unfold registered in Hk. simpl in Hk.
      by rewrite Hempty, lookup_empty in Hk.
  - unfold Dispatch. rewrite (bind_Panicked _ _ _ _ _ Hloop). simpl.
    by destruct Hl as (_ & ? & ?).
  - unfold Dispatch. rewrite (bind_Blocked _ _ _ _ Hloop). simpl.
    by destruct Hl as (_ & ? & ?).
Qed.

Lemma orphan_operations c os σ :
  wf σ → orphan σ c →
  wf (run_operations os σ) ∧ orphan (run_operations os σ) c ∧
  chans (run_operations os σ) !! c = chans σ !! c.
Proof.
  revert σ. induction os as [|o os IH]; intros σ Hwf Ho; [done|].
  assert (Hstep : keeps_orphan c σ (run_operation o σ)).
  { destruct o as [call|sched]; [apply orphan_run_call|apply orphan_Dispatch]. }
  destruct (Hstep Hwf Ho) as (Hwf1 & Ho1 & E1).
  destruct (IH _ Hwf1 Ho1) as (Hwf' & Ho' & E').
  simpl. split; [done|]. split; [done|]. by rewrite E'.
Qed.
End orphans.

(** X6.  The hub touches only the channels of its registry: a channel that
    exists and that no key of the registry leads to is, after any sequence
    of calls of the hub, as it was (nothing is sent on it and it is not
    closed), and no key leads to it. *)
Theorem unregistered_channel_untouched `{RangeOrder} c os σ :
  wf σ →
  orphan σ c →
  chans (run_operations os σ) !! c = chans σ !! c ∧
  orphan (run_operations os σ) c.
Proof.
  intros Hwf Ho. by destruct (orphan_operations c os σ Hwf Ho) as (_ & ? & ?).
Qed.

Lemma Subscribe_again_orphans session old σ :
  wf σ →
  registered σ session old →
  orphan (final_state (Subscribe session σ)) old ∧
  chans (final_state (Subscribe session σ)) !! old = chans σ !! old.
Proof.
  intros Hwf Hreg.
  destruct (wf_open _ Hwf _ _ Hreg) as (c' & [= <-] & ch & Hch & Hcl).
  pose proof (lookup_lt_Some _ _ _ Hch) as Hlt.
  assert (Hsame : chans (final_state (Subscribe session σ)) !! old = chans σ !! old).
  { rewrite Subscribe_eq. simpl. by apply lookup_app_l. }
  split; [|done]. split; [rewrite Hsame; eauto|].
  rewrite Subscribe_eq. intros k Hk. unfold registered in Hk. simpl in Hk.
  destruct (decide (session = k)) as [<-|Hne].
  - rewrite lookup_insert_eq in Hk. injection Hk. lia.
  - rewrite lookup_insert_ne in Hk by done.
    apply Hne. by apply (wf_inj _ Hwf _ _ old).
Qed.

Lemma unregistered_channel_untouched_witness :
  wf (final_state (Subscribe "A" two_subscribers)) ∧
  orphan (final_state (Subscribe "A" two_subscribers)) 0 ∧
  chans (run_operations
           [OpDispatch [Recv (text_frame "hello"); Call CallShutdown];
            OpCall (CallSubscribe "C")]
           (final_state (Subscribe "A" two_subscribers))) !! 0
    = Some (mkChan false []).
Proof.
  assert (Ho : orphan (final_state (Subscribe "A" two_subscribers)) 0).
  { apply (Subscribe_again_orphans "A" 0 two_subscribers);
      [exact wf_two_subscribers|reflexivity]. }
  split; [apply wf_Subscribe, wf_two_subscribers|]. split; [exact Ho|].
  destruct (unregistered_channel_untouched 0
              [OpDispatch [Recv (text_frame "hello"); Call CallShutdown];
               OpCall (CallSubscribe "C")]
              (final_state (Subscribe "A" two_subscribers))) as [E _];
    [apply wf_Subscribe, wf_two_subscribers|exact Ho|].
  exact E.
Defined.

(** X7.  A channel replaced by a second [Subscribe] for its session is
    never closed: after the second [Subscribe] and any sequence of further
    calls of the hub, [Dispatch] and its teardown included, the channel is
    still open and holds what it held. *)
Theorem replaced_channel_never_closed `{RangeOrder} session old os σ :
  wf σ →
  registered σ session old →
  let σ' := run_operations os (final_state (Subscribe session σ)) in
  chans σ' !! old = chans σ !! old ∧ open_at σ' old.
Proof.
  intros Hwf Hreg σ'.
  destruct (wf_open _ Hwf _ _ Hreg) as (c' & [= <-] & ch & Hch & Hcl).
  destruct (Subscribe_again_orphans session old σ Hwf Hreg) as [Ho Hsame].
  destruct (orphan_operations old os _ (wf_Subscribe session σ Hwf) Ho)
    as (_ & _ & E).
  assert (E' : chans σ' !! old = chans σ !! old) by (unfold σ'; by rewrite E).
  split; [done|]. exists ch. by rewrite E'.
Qed.

Lemma replaced_channel_never_closed_witness :
  wf two_subscribers ∧ registered two_subscribers "A" 0 ∧
  open_at (run_operations
             [OpDispatch [Recv (text_frame "hello"); Recv binary];
              OpDispatch []]
             (final_state (Subscribe "A" two_subscribers))) 0.
Proof.
  split; [exact wf_two_subscribers|]. split; [reflexivity|].
  apply (replaced_channel_never_closed "A" 0
           [OpDispatch [Recv (text_frame "hello"); Recv binary]; OpDispatch []]
           two_subscribers); [exact wf_two_subscribers|reflexivity].
Defined.

(** ** What holds whenever Dispatch returns *)

(** A drain that returns has deleted every key it visited, whatever the
    state. *)
Lemma drain_returned entries σ σ' :
  Range_from drain entries tt σ = Returned tt σ' →
  ∀ k, channels (hub σ') !! k =
       if decide (k ∈ entries.*1) then None else channels (hub σ) !! k.
Proof.
  revert σ. induction entries as [|[key value] entries IH]; intros σ Hrun k.
  - injection Hrun as <-. by rewrite decide_False by apply not_elem_of_nil.
  - cbn [Range_from] in Hrun.
    apply bind_Returned_inv in Hrun as ([b []] & σ1 & Hdrain & Hrest).
    unfold drain in Hdrain.
    apply bind_Returned_inv in Hdrain as ([] & σa & Hinfo & Hdrain).
    injection Hinfo as <-.
    apply bind_Returned_inv in Hdrain as ([] & σb & Hun & Hret).
    injection Hret as <- <-.
    destruct (Unsubscribe_cases key (emit (DidLog (shutting_down key)) σ))
      as [[e He]|(c & ch & Hreg & Hch & Hcl)]; [congruence|].
    rewrite (Unsubscribe_registered _ _ _ _ Hreg Hch Hcl) in Hun.
    injection Hun as <-.
    rewrite (IH _ Hrest k). simpl. rewrite lookup_delete.
    destruct (decide (k ∈ entries.*1)) as [Hin|Hnin].
    + by rewrite decide_True by (by right).
    + destruct (decide (key = k)) as [<-|Hne].
      * by rewrite decide_True by left.
      * rewrite decide_False; [done|].
        intros [?|?]%elem_of_cons; [congruence|done].
Qed.

Lemma latched_drain `{RangeOrder} : respects latched (Range drain tt).
Proof.
  apply respects_Range; [apply _|]. intros key value u.
  apply respects_bind; [apply _|by intros σ Hf|]. intros _.
  apply respects_bind; [apply _| |intros _; apply respects_ret; apply _].
  apply respects_Unsubscribe; [apply _|..].
  - intros c σ.
    destruct (close_cases c σ) as [[? ->]|(? & _ & _ & ->)]; by unfold latched.
  - by intros key' σ Hf.
Qed.

(** X8.  Whenever [Dispatch] returns, whatever the state and the schedule
    were: the flag is set, the registry is empty, this call has closed the
    connection exactly once, as its last effect, and the error returned is
    what [Close] returned joined with nil. *)
Theorem Dispatch_returns_torn_down `{RangeOrder} sched σ err σ' :
  Dispatch sched σ = Returned err σ' →
  err = errors_Join [closeErr (inputConnection (hub σ)); None] ∧
  didShutdown (hub σ') = true ∧
  channels (hub σ') = ∅ ∧
  closes_of (new_effects σ σ') = [tt] ∧
  last (trace σ') = Some DidClose.
Proof.
  intros Hrun. split; [by apply (Dispatch_returns_close_error sched σ err σ')|].
  unfold Dispatch in Hrun.
  apply bind_Returned_inv in Hrun as ([] & σ1 & Hloop & Hrest).
  apply bind_Returned_inv in Hrest as ([] & σ2 & Hdrain & Hrest).
  apply bind_Returned_inv in Hrest as (closing & σ3 & Hclose & Hret).
  injection Hclose as <- <-. injection Hret as _ <-.
  split; [|split; [|split]].
  - pose proof (latched_drain σ1) as Hl. rewrite Hdrain in Hl.
    apply Hl. by apply (loop_exit sched σ).
  - apply map_eq. intros k. simpl.
    rewrite (drain_returned _ _ _ Hdrain k), lookup_empty.
    case_decide as Hk; [done|].
    rewrite range_order_keys in Hk. by apply eq_None_not_Some.
  - destruct (quiet_loop sched σ) as (es1 & Ht1 & Hq1). rewrite Hloop in Ht1.
    destruct (drain_logs_once (range_order (channels (hub σ1))) σ1)
      as (es2 & Ht2 & Hc2 & _); [apply NoDup_range_order_keys|].
    change (Range_from drain (range_order (channels (hub σ1))) tt σ1)
      with (Range drain tt σ1) in Ht2. rewrite Hdrain in Ht2. simpl in Ht1, Ht2.
    rewrite (new_effects_app σ _ (es1 ++ es2 ++ [DidClose])).
    + unfold closes_of. rewrite !omap_app. fold (closes_of es1) (closes_of es2).
      by rewrite (quiet_closes_of _ Hq1), Hc2.
    + simpl. by rewrite Ht2, Ht1, <- !app_assoc.
  - simpl. apply last_snoc.
Qed.

Lemma Dispatch_returns_torn_down_witness :
  ∃ err σ',
    Dispatch [Recv (text_frame "hello"); Recv binary] two_subscribers
      = Returned err σ' ∧
    err = None ∧
    didShutdown (hub σ') = true ∧
    channels (hub σ') = ∅ ∧
    closes_of (new_effects two_subscribers σ') = [tt] ∧
    last (trace σ') = Some DidClose.
Proof.
  eexists _, _. split; [vm_compute; reflexivity|].
  eapply (Dispatch_returns_torn_down
            [Recv (text_frame "hello"); Recv binary] two_subscribers).
  vm_compute. reflexivity.
Defined.

(** ** A frame that stops the loop *)

(** X9.  A read that fails, or a frame that is not a text frame, is
    delivered to nobody and ends the run: [Dispatch] reads it, sends
    nothing, drains the registry, closes the connection and returns,
    leaving the rest of the schedule unread.  Every registered channel is
    closed with what had been delivered on it before. *)
Theorem Dispatch_stops_on_bad_frame `{RangeOrder} f rest σ :
  wf σ →
  didShutdown (hub σ) = false →
  is_Some (readErr f) ∨ messageType f ≠ TextMessage →
  ∃ σ',
    Dispatch (Recv f :: rest) σ =
      Returned (errors_Join [closeErr (inputConnection (hub σ)); None]) σ' ∧
    new_effects σ σ' =
      DidRead f :: drains_of (range_order (channels (hub σ))) ++ [DidClose] ∧
    (∀ k c, registered σ k c →
       ∃ ch, chans σ !! c = Some ch ∧
             chans σ' !! c = Some (mkChan true (delivered ch))).
Proof.
  intros Hwf Hflag Hstop.
  set (σs := set_hub (set_didShutdown true) (emit (DidRead f) σ)).
  assert (Hwfs : wf σs) by by apply wf_Shutdown, wf_emit.
  destruct (Dispatch_after_loop rest σs σs Hwfs (loop_flag_set rest σs eq_refl))
    as (σ2 & Hrun & _ & _ & _ & Htrace & Hin & _).
  exists (emit DidClose σ2). split; [|split].
  - rewrite (Dispatch_step f rest σ σs Hflag (iteration_stop f σ Hstop)).
    exact Hrun.
  - apply new_effects_app. simpl. rewrite Htrace. simpl.
    by rewrite <- !app_assoc.
  - intros k c Hk.
    destruct (wf_open _ Hwf _ _ Hk) as (c' & [= <-] & ch & Hch & Hcl).
    exists ch. split; [done|]. simpl. rewrite (Hin k c Hk). simpl. by rewrite Hch.
Qed.

Lemma Dispatch_stops_on_bad_frame_witness :
  wf two_subscribers ∧ didShutdown (hub two_subscribers) = false ∧
  (is_Some (readErr binary) ∨ messageType binary ≠ TextMessage) ∧
  ∃ σ',
    Dispatch [Recv binary; Recv (text_frame "unread")] two_subscribers =
      Returned None σ' ∧
    new_effects two_subscribers σ' =
      [DidRead binary;
       DidLog "shutting down: A"; DidCloseChan 0; DidDelete "A";
       DidLog "shutting down: B"; DidCloseChan 1; DidDelete "B"; DidClose].
Proof.
  split; [exact wf_two_subscribers|]. split; [reflexivity|].
  split; [by right|].
  destruct (Dispatch_stops_on_bad_frame binary [Recv (text_frame "unread")]
              two_subscribers) as (σ' & Hrun & Hnew & _);
    [exact wf_two_subscribers|reflexivity|by right|].
  exists σ'. split; [exact Hrun|exact Hnew].
Defined.

(** ** A registry entry that is not a channel *)

Lemma drain_corrupted entries σ k tag :
  NoDup entries.*1 →
  k ∈ entries.*1 →
  channels (hub σ) !! k = Some (notChan tag) →
  ∃ e σ',
    Range_from drain entries tt σ = Panicked e σ' ∧
    channels (hub σ') !! k = Some (notChan tag).
Proof.
  revert σ. induction entries as [|[key value] entries IH];
    intros σ Hkeys Hin Hk; [by apply elem_of_nil in Hin|].
  rewrite fmap_cons in Hkeys, Hin. simpl in Hkeys, Hin.
  apply NoDup_cons in Hkeys as [Hkey Hkeys].
  cbn [Range_from]. set (σa := emit (DidLog (shutting_down key)) σ).
  assert (Hinfo : Info (shutting_down key) σ = Returned tt σa) by done.
  destruct (decide (key = k)) as [->|Hne].
  - exists (errorString "found object that was not a event channel in event hub"), σa.
    split; [|done].
    apply bind_Panicked. unfold drain. rewrite (bind_Returned _ _ _ _ _ Hinfo).
    apply bind_Panicked. unfold Unsubscribe.
    erewrite bind_Returned; [|reflexivity]. simpl. by rewrite Hk.
  - apply elem_of_cons in Hin as [->|Hin]; [done|].
    destruct (Unsubscribe_cases key σa) as [[e He]|(c & ch & Hreg & Hch & Hcl)].
    + exists e, σa. split; [|done].
      apply bind_Panicked. unfold drain. rewrite (bind_Returned _ _ _ _ _ Hinfo).
      by apply bind_Panicked.
    + pose proof (Unsubscribe_registered key c ch σa Hreg Hch Hcl) as Hun.
      set (σb := mkProcess _ _ _) in Hun.
      destruct (IH σb Hkeys Hin) as (e & σ' & Hrun & Hk').
      { simpl. by rewrite lookup_delete_ne. }
      exists e, σ'. split; [|done].
      assert (Hd : drain key value tt σ = Returned (true, tt) σb).
      { unfold drain. rewrite (bind_Returned _ _ _ _ _ Hinfo).
        by rewrite (bind_Returned _ _ _ _ _ Hun). }
      by rewrite (bind_Returned _ _ _ _ _ Hd).
Qed.

(** X10.  If the registry holds a value that is not a channel when the loop
    of [Dispatch] is left, [Dispatch] does not return: the drain panics,
    the connection is not closed, and the value is still in the
    registry. *)
Theorem Dispatch_panics_on_corrupted_entry `{RangeOrder} sched σ σ1 k tag :
  Dispatch_loop sched σ = Returned tt σ1 →
  channels (hub σ1) !! k = Some (notChan tag) →
  ∃ e σ',
    Dispatch sched σ = Panicked e σ' ∧
    closes_of (new_effects σ σ') = [] ∧
    channels (hub σ') !! k = Some (notChan tag).
Proof.
  intros Hloop Hk.
  destruct (drain_corrupted (range_order (channels (hub σ1))) σ1 k tag)
    as (e & σ' & Hdrain & Hk'); [apply NoDup_range_order_keys| |done|].
  { apply range_order_keys. eauto. }
  exists e, σ'. split; [|split; [|done]].
  - unfold Dispatch. rewrite (bind_Returned _ _ _ _ _ Hloop).
    by apply bind_Panicked.
  - destruct (quiet_loop sched σ) as (es1 & Ht1 & Hq1). rewrite Hloop in Ht1.
    destruct (drain_logs_once (range_order (channels (hub σ1))) σ1)
      as (es2 & Ht2 & Hc2 & _); [apply NoDup_range_order_keys|].
    rewrite Hdrain in Ht2. simpl in Ht1, Ht2.
    rewrite (new_effects_app σ σ' (es1 ++ es2)).
    + unfold closes_of. rewrite omap_app. fold (closes_of es1) (closes_of es2).
      by rewrite (quiet_closes_of _ Hq1), Hc2.
    + by rewrite Ht2, Ht1, <- app_assoc.
Qed.

Lemma Dispatch_panics_on_corrupted_entry_witness :
  ∃ σ1 e σ',
    Dispatch_loop [Recv (text_frame "hello")] corrupted = Returned tt σ1 ∧
    channels (hub σ1) !! "A" = Some (notChan 0) ∧
    Dispatch [Recv (text_frame "hello")] corrupted = Panicked e σ' ∧
    closes_of (new_effects corrupted σ') = [].
Proof.
  eexists.
  destruct (Dispatch_panics_on_corrupted_entry [Recv (text_frame "hello")]
              corrupted
              (final_state (Dispatch_loop [Recv (text_frame "hello")] corrupted))
              "A" 0) as (e & σ' & Hrun & Hcloses & _);
    [vm_compute; reflexivity|vm_compute; reflexivity|].
  exists e, σ'. split; [vm_compute; reflexivity|].
  split; [vm_compute; reflexivity|]. split; [exact Hrun|exact Hcloses].
Defined.

(** ** A run without a shutdown *)

Lemma is_text_text_frame f : is_text f = true → f = text_frame (payload f).
Proof.
  destruct f as [ty p [e|]]; unfold is_text; simpl; [done|].
  intros Hty%bool_decide_eq_true. by subst ty.
Qed.

Lemma loop_calm `{RangeOrder} sched σ :
  wf σ →
  didShutdown (hub σ) = false →
  Forall calm sched →
  ∃ σ',
    Dispatch_loop sched σ = Blocked σ' ∧ wf σ' ∧ didShutdown (hub σ') = false.
Proof.
  revert σ. induction sched as [|t sched IH]; intros σ Hwf Hflag Hcalm.
  - exists σ. simpl. by rewrite Hflag.
  - apply Forall_cons in Hcalm as [Ht Hcalm].
    destruct t as [f|[session|session|]]; simpl in Ht; try done.
    + rewrite (is_text_text_frame f Ht).
      destruct (iteration_text (payload f) σ Hwf)
        as (σ1 & Hiter & Hhub & _ & _ & _ & Hwf1).
      destruct (IH σ1 Hwf1) as (σ' & Hloop & Hwf' & Hflag'); [by rewrite Hhub|done|].
      exists σ'. split; [|done]. cbn [Dispatch_loop]. rewrite Hflag.
      by rewrite (bind_Returned _ _ _ _ _ Hiter).
    + assert (Hcall : run_call (CallSubscribe session) σ =
                Returned tt (final_state (Subscribe session σ))).
      { cbn [run_call]. by rewrite (bind_Returned _ _ _ _ _ (Subscribe_eq session σ)),
          Subscribe_eq. }
      destruct (IH (final_state (Subscribe session σ))) as (σ' & Hloop & Hwf' & Hflag');
        [by apply wf_Subscribe|by rewrite Subscribe_eq|done|].
      exists σ'. split; [|done]. cbn [Dispatch_loop]. rewrite Hflag.
      by rewrite (bind_Returned _ _ _ _ _ Hcall).
Qed.

(** X11.  [Dispatch] does not end by itself.  When the flag is clear and
    the schedule holds only text frames read without error and calls of
    [Subscribe], [Dispatch] reads to the end of the schedule and then waits
    in [ReadMessage] for ever: it does not return, the flag is still clear,
    nothing was logged, the connection was not closed, and every channel of
    the registry is open. *)
Theorem Dispatch_without_shutdown_blocks `{RangeOrder} sched σ :
  wf σ →
  didShutdown (hub σ) = false →
  Forall calm sched →
  ∃ σ',
    Dispatch sched σ = Blocked σ' ∧
    didShutdown (hub σ') = false ∧
    closes_of (new_effects σ σ') = [] ∧
    log_lines (new_effects σ σ') = [] ∧
    wf σ'.
Proof.
  intros Hwf Hflag Hcalm.
  destruct (loop_calm sched σ Hwf Hflag Hcalm) as (σ' & Hloop & Hwf' & Hflag').
  exists σ'. split; [|split; [done|]].
  - unfold Dispatch. by apply bind_Blocked.
  - destruct (quiet_loop sched σ) as (es & Ht & Hq). rewrite Hloop in Ht.
    simpl in Ht. rewrite (new_effects_app σ σ' es Ht).
    by rewrite (quiet_closes_of _ Hq), (quiet_log_lines _ Hq).
Qed.

Lemma Dispatch_without_shutdown_blocks_witness :
  wf two_subscribers ∧ didShutdown (hub two_subscribers) = false ∧
  ∃ σ',
    Dispatch [Recv (text_frame "hello"); Call (CallSubscribe "C");
              Recv (text_frame "world")] two_subscribers = Blocked σ' ∧
    didShutdown (hub σ') = false ∧
    closes_of (new_effects two_subscribers σ') = [].
Proof.
  split; [exact wf_two_subscribers|]. split; [reflexivity|].
  destruct (Dispatch_without_shutdown_blocks
              [Recv (text_frame "hello"); Call (CallSubscribe "C");
               Recv (text_frame "world")] two_subscribers)
    as (σ' & Hrun & Hflag & Hcloses & _);
    [exact wf_two_subscribers|reflexivity| |].
  { repeat (apply Forall_cons; split); try (by apply Forall_nil); by simpl. }
  exists σ'. split; [exact Hrun|]. split; [exact Hflag|exact Hcloses].
Defined.

(** ** Dispatch after Dispatch *)

(** X12.  [Dispatch] does not guard against a second call.  Called again on
    a hub whose [Dispatch] has returned, whatever the schedule, it reads
    nothing, finds the registry empty, closes the connection a second time
    and returns. *)
Theorem Dispatch_again_closes_again `{RangeOrder} sched sched' σ err σ' :
  Dispatch sched σ = Returned err σ' →
  ∃ err',
    Dispatch sched' σ' = Returned err' (emit DidClose σ') ∧
    closes_of (new_effects σ (emit DidClose σ')) = [tt; tt].
Proof.
  intros Hrun.
  assert (Hfacts : didShutdown (hub σ') = true ∧ channels (hub σ') = ∅ ∧
                   closes_of (new_effects σ σ') = [tt] ∧
                   ∃ es, trace σ' = trace σ ++ es).
  { unfold Dispatch in Hrun.
    apply bind_Returned_inv in Hrun as ([] & σ1 & Hloop & Hrest).
    apply bind_Returned_inv in Hrest as ([] & σ2 & Hdrain & Hrest).
    apply bind_Returned_inv in Hrest as (closing & σ3 & Hclose & Hret).
    injection Hclose as <- <-. injection Hret as _ <-.
    destruct (quiet_loop sched σ) as (es1 & Ht1 & Hq1). rewrite Hloop in Ht1.
    destruct (drain_logs_once (range_order (channels (hub σ1))) σ1)
      as (es2 & Ht2 & Hc2 & _); [apply NoDup_range_order_keys|].
    change (Range_from drain (range_order (channels (hub σ1))) tt σ1)
      with (Range drain tt σ1) in Ht2. rewrite Hdrain in Ht2. simpl in Ht1, Ht2.
    assert (Ht : trace (emit DidClose σ2) = trace σ ++ (es1 ++ es2 ++ [DidClose])).
    { simpl. by rewrite Ht2, Ht1, <- !app_assoc. }
    split; [|split; [|split; [|eauto]]].
    - pose proof (latched_drain σ1) as Hl. rewrite Hdrain in Hl.
      apply Hl. by apply (loop_exit sched σ).
    - apply map_eq. intros k. simpl.
      rewrite (drain_returned _ _ _ Hdrain k), lookup_empty.
      case_decide as Hk; [done|].
      rewrite range_order_keys in Hk. by apply eq_None_not_Some.
    - rewrite (new_effects_app σ _ _ Ht).
      unfold closes_of. rewrite !omap_app. fold (closes_of es1) (closes_of es2).
      by rewrite (quiet_closes_of _ Hq1), Hc2. }
  destruct Hfacts as (Hflag & Hempty & Hcloses & es & Ht).
  assert (Hdrain : Range drain tt σ' = Returned tt σ').
  { unfold Range. rewrite Hempty.
    assert (Hnil : range_order ∅ = []).
    { apply Permutation_nil_r. by rewrite range_order_perm, map_to_list_empty. }
    by rewrite Hnil. }
  eexists. split.
  - unfold Dispatch. rewrite (bind_Returned _ _ _ _ _ (loop_flag_set sched' σ' Hflag)).
    rewrite (bind_Returned _ _ _ _ _ Hdrain).
    by erewrite bind_Returned; [|reflexivity].
  - rewrite (new_effects_app σ σ' es Ht) in Hcloses.
    rewrite (new_effects_app σ (emit DidClose σ') (es ++ [DidClose])).
    + unfold closes_of. rewrite omap_app. fold (closes_of es). by rewrite Hcloses.
    + simpl. by rewrite Ht, <- app_assoc.
Qed.

Lemma Dispatch_again_closes_again_witness :
  ∃ err σ' err',
    Dispatch [Recv binary] two_subscribers = Returned err σ' ∧
    Dispatch [Recv (text_frame "hello")] σ' = Returned err' (emit DidClose σ') ∧
    closes_of (new_effects two_subscribers (emit DidClose σ')) = [tt; tt].
Proof.
  eexists _, _.
  destruct (Dispatch_again_closes_again [Recv binary] [Recv (text_frame "hello")]
              two_subscribers None
              (final_state (Dispatch [Recv binary] two_subscribers)))
    as (err' & Hrun & Hcloses); [vm_compute; reflexivity|].
  exists err'. split; [vm_compute; reflexivity|]. split; [exact Hrun|exact Hcloses].
Defined.

(** ** Every event sent was read *)

Lemma sends_follow_reads_app current es1 es2 :
  sends_follow_reads current es1 →
  (∀ current', sends_follow_reads current' es2) →
  sends_follow_reads current (es1 ++ es2).
Proof.
  intros H1 H2. revert current H1.
  induction es1 as [|e es1 IH]; intros current H1; [apply H2|].
  destruct e; simpl in *; try (by apply IH).
  destruct H1 as [Hc H1]. split; [done|by apply IH].
Qed.

Lemma silent_sends_follow_reads es current :
  Forall silent es → sends_follow_reads current es.
Proof.
  induction 1 as [|e es He _ IH]; [done|]. by destruct e.
Qed.

Lemma announces_sends_follow_reads msg es :
  Forall (announces msg) es → sends_follow_reads (Some msg) es.
Proof.
  induction 1 as [|e es [c ->] _ IH]; [done|]. by split.
Qed.

#[global] Instance grows_soundly_preorder : PreOrder grows_soundly.
Proof.
  split.
  - intros σ. exists []. split; [by rewrite app_nil_r|done].
  - intros σ1 σ2 σ3 (es1 & H1 & P1) (es2 & H2 & P2). exists (es1 ++ es2).
    split; [by rewrite H2, H1, app_assoc|].
    intros current. by apply sends_follow_reads_app.
Qed.

Lemma grows_silent_soundly σ σ' : grows silent σ σ' → grows_soundly σ σ'.
Proof.
  intros (es & Ht & Hs). exists es. split; [done|].
  intros current. by apply silent_sends_follow_reads.
Qed.

Section sound.
Context `{RangeOrder}.

Ltac silently :=
  let σ := fresh "σ" in
  intros σ;
  lazymatch goal with
  | |- context [close ?c σ] =>
      destruct (close_cases c σ) as [[? ->]|(? & _ & _ & ->)]
  | |- _ => idtac
  end;
  simpl;
  first [ by apply grows_same
        | eapply grows_emit; [|simpl; reflexivity]; done ].

Lemma silent_run_call c : respects (grows silent) (run_call c).
Proof. apply respects_run_call; try apply _; intros; silently. Qed.

Lemma silent_drain : respects (grows silent) (Range drain tt).
Proof.
  apply respects_Range; [apply _|]. intros key value u.
  apply respects_bind; [apply _|silently|]. intros _.
  apply respects_bind; [apply _| |intros _; apply respects_ret; apply _].
  apply respects_Unsubscribe; try apply _; intros; silently.
Qed.

(** A broadcast sends the message it was given and nothing else,
    whatever the state. *)
Lemma announces_broadcast msg err :
  respects (grows (announces msg)) (Range (deliver msg) err).
Proof.
  apply respects_Range; [apply _|]. intros key value err'.
  destruct value as [c|tag]; simpl.
  - apply respects_bind; [apply _| |intros _; apply respects_ret; apply _].
    intros σ. destruct (send_cases c (mkEvent msg) σ) as [[? ->]|[->|(? & _ & _ & ->)]];
      simpl; try reflexivity.
    eapply grows_emit; [|simpl; reflexivity]. by exists c.
  - apply respects_bind; [apply _| |intros _; apply respects_ret; apply _].
    intros σ. by apply grows_same.
Qed.

Lemma sound_iteration f : respects grows_soundly (iteration f).
Proof.
  intros σ.
  assert (Hread : ∀ σ', trace σ' = trace σ ++ [DidRead f] → grows_soundly σ σ').
  { intros σ' Ht. exists [DidRead f]. by split. }
  unfold iteration. erewrite bind_Returned; [|reflexivity]. simpl.
  destruct (readErr f) as [e|]; [by apply Hread|].
  case_bool_decide; [by apply Hread|].
  destruct (announces_broadcast (payload f) None (emit (DidRead f) σ))
    as (es & Ht & Hes).
  assert (Hgoal : ∀ σ', trace σ' =
              trace (final_state (Range (deliver (payload f)) None
                                    (emit (DidRead f) σ))) →
            grows_soundly σ σ').
  { intros σ' Hσ'. exists (DidRead f :: es). split.
    - rewrite Hσ', Ht. simpl. by rewrite <- app_assoc.
    - intros current. simpl. by apply announces_sends_follow_reads. }
  unfold mbind, M_bind, bind.
  destruct (Range (deliver (payload f)) None (emit (DidRead f) σ))
    as [[e|] σ1|e σ1|σ1]; by apply Hgoal.
Qed.

Lemma sound_loop sched : respects grows_soundly (Dispatch_loop sched).
Proof.
  apply respects_Dispatch_loop; [apply _| |apply sound_iteration].
  intros c σ. apply grows_silent_soundly, silent_run_call.
Qed.

Lemma sound_Dispatch sched : respects grows_soundly (Dispatch sched).
Proof.
  apply respects_bind; [apply _|apply sound_loop|]. intros _.
  apply respects_bind; [apply _| |].
  { intros σ. apply grows_silent_soundly, silent_drain. }
  intros _. apply respects_bind; [apply _| |intros e; apply respects_ret; apply _].
  intros σ. apply grows_silent_soundly.
  eapply grows_emit; [|simpl; reflexivity]. done.
Qed.
End sound.

(** X13.  [Dispatch] sends only what it has just read.  Whatever the state
    and the schedule, and whether [Dispatch] returns, panics or blocks,
    every event it sends carries the payload of the frame that it read last
    before the send; in particular nothing is sent before a frame is
    read. *)
Theorem Dispatch_sends_what_it_read `{RangeOrder} sched σ :
  sends_follow_reads None (new_effects σ (final_state (Dispatch sched σ))).
Proof.
  destruct (sound_Dispatch sched σ) as (es & Ht & Hes).
  by rewrite (new_effects_app _ _ _ Ht).
Qed.

(** ** The persona systems *)

Lemma authorize_known Address s :
  Address ∈ AuthorizedAddresses s ↔
  existsb (fun addr => String.eqb addr Address) (AuthorizedAddresses s) = true.
Proof.
  rewrite existsb_exists. split.
  - intros Hin. exists Address. split; [by apply list_elem_of_In|].
    apply String.eqb_refl.
  - intros (a & Hin & Heq%String.eqb_eq). subst a. by apply list_elem_of_In.
Qed.

(** X14.  The update that [AuthorizePersonaAddressSystem] applies to a
    signer component authorizes the address without ever listing it
    twice: afterwards the address is among the authorized ones, the
    addresses authorized before are kept in their order in front of it,
    the persona tag and the signer address are unchanged, a list without
    duplicates stays so, and applying the update again changes nothing
    (as when the address was authorized already). *)
Theorem authorize_adds_the_address_once Address s :
  Address ∈ AuthorizedAddresses (authorize Address s) ∧
  AuthorizedAddresses s `prefix_of` AuthorizedAddresses (authorize Address s) ∧
  PersonaTag (authorize Address s) = PersonaTag s ∧
  SignerAddress (authorize Address s) = SignerAddress s ∧
  (NoDup (AuthorizedAddresses s) →
   NoDup (AuthorizedAddresses (authorize Address s))) ∧
  (Address ∈ AuthorizedAddresses s → authorize Address s = s) ∧
  authorize Address (authorize Address s) = authorize Address s.
Proof.
  assert (Hfix : ∀ s', Address ∈ AuthorizedAddresses s' → authorize Address s' = s').
  { intros s' Hin%authorize_known. unfold authorize. by rewrite Hin. }
  assert (Hin : Address ∈ AuthorizedAddresses (authorize Address s)).
  { unfold authorize.
    destruct (existsb _ (AuthorizedAddresses s)) eqn:Hex.
    - by apply authorize_known.
    - simpl. apply elem_of_app. right. left. }
  split; [done|]. split; [|split; [|split; [|split; [|split]]]].
  - unfold authorize. destruct (existsb _ _); [done|]. simpl.
    by apply prefix_app_r.
  - unfold authorize. by destruct (existsb _ _).
  - unfold authorize. by destruct (existsb _ _).
  - intros Hnd. unfold authorize.
    destruct (existsb _ (AuthorizedAddresses s)) eqn:Hex; [done|]. simpl.
    apply NoDup_app. split; [done|]. split; [|apply NoDup_singleton].
    intros a Ha [->|[]%elem_of_nil]%elem_of_cons.
    apply authorize_known in Ha. congruence.
  - apply Hfix.
  - by apply Hfix.
Qed.

(** ** Subscribers that join or leave during a run *)

Lemma runs_app `{RangeOrder} sched1 sched2 σ σ1 σ2 :
  runs sched1 σ σ1 → runs sched2 σ1 σ2 → runs (sched1 ++ sched2) σ σ2.
Proof.
  induction 1 as [σ|f sched σ σa σ1 Hflag Hiter _ IH|c sched σ σa σ1 Hflag Hcall _ IH];
    intros H2; [done|..]; simpl.
  - by apply (runs_Recv f _ σ σa), IH.
  - by apply (runs_Call c _ σ σa), IH.
Qed.

Lemma unallocated_stays `{RangeOrder} payloads σ σ' n :
  wf σ →
  (∀ k c, registered σ k c →
     chans σ' !! c = receive (mkEvent <$> payloads) <$> chans σ !! c) →
  (∀ c, (∀ k, ¬ registered σ k c) → chans σ' !! c = chans σ !! c) →
  chans σ' !! n = None → chans σ !! n = None.
Proof.
  intros Hwf Hin Hout Hn.
  destruct (decide (n ∈ chans_of (range_order (channels (hub σ))))) as [Hreg|Hun].
  - apply range_order_chans in Hreg as [k Hk].
    rewrite (Hin k n Hk) in Hn. by destruct (chans σ !! n).
  - rewrite <- Hn. symmetry. apply Hout. intros k Hk. apply Hun.
    apply range_order_chans. by exists k.
Qed.

(** X15.  A subscriber that joins during a run receives the frames read
    after it joined and none of the earlier ones.  When [Subscribe] is
    called after the text frames [before] and ahead of the text frames
    [after], the loop gets through all of them, and the channel that
    [Subscribe] made, which did not exist at the start, is registered for
    the session and holds exactly the events of [after], in order. *)
Theorem late_subscriber_gets_later_frames `{RangeOrder} before after session σ :
  wf σ →
  didShutdown (hub σ) = false →
  let sched := (Recv ∘ text_frame <$> before)
                 ++ Call (CallSubscribe session)
                 :: (Recv ∘ text_frame <$> after) in
  ∃ σ' new,
    runs sched σ σ' ∧
    (∀ rest, Dispatch (sched ++ rest) σ = Dispatch rest σ') ∧
    chans σ !! new = None ∧
    registered σ' session new ∧
    chans σ' !! new = Some (mkChan false (mkEvent <$> after)).
Proof.
  intros Hwf Hflag sched.
  destruct (runs_text_frames before σ Hwf Hflag)
    as (σa & Hruns_a & Hhub_a & Hwf_a & _ & Hin_a & Hout_a).
  set (new := length (chans σa)).
  set (σb := final_state (Subscribe session σa)).
  assert (Hwf_b : wf σb) by by apply wf_Subscribe.
  assert (Hflag_a : didShutdown (hub σa) = false) by by rewrite Hhub_a.
  assert (Hreg_b : registered σb session new).
  { unfold σb. rewrite Subscribe_eq. apply lookup_insert_eq. }
  assert (Hnew_b : chans σb !! new = Some (mkChan false [])).
  { unfold σb. rewrite Subscribe_eq. simpl. by rewrite lookup_app_r, Nat.sub_diag. }
  destruct (runs_text_frames after σb Hwf_b)
    as (σ' & Hruns_b & Hhub_b & _ & _ & Hin_b & _).
  { unfold σb. by rewrite Subscribe_eq. }
  assert (Hruns : runs sched σ σ').
  { apply (runs_app _ _ σ σa σ'); [done|].
    apply (runs_Call _ _ σa σb); [done| |done].
    cbn [run_call]. unfold σb.
    by rewrite (bind_Returned _ _ _ _ _ (Subscribe_eq session σa)), Subscribe_eq. }
  exists σ', new. split; [done|]. split; [by apply runs_Dispatch|].
  split; [|split].
  - apply (unallocated_stays before σ σa new Hwf Hin_a Hout_a).
    by apply lookup_ge_None.
  - unfold registered. by rewrite Hhub_b.
  - by rewrite (Hin_b session new Hreg_b), Hnew_b.
Qed.

Lemma late_subscriber_gets_later_frames_witness :
  wf two_subscribers ∧ didShutdown (hub two_subscribers) = false ∧
  ∃ σ' new,
    runs [Recv (text_frame "hello"); Call (CallSubscribe "C");
          Recv (text_frame "world")] two_subscribers σ' ∧
    chans two_subscribers !! new = None ∧
    registered σ' "C" new ∧
    chans σ' !! new = Some (mkChan false [mkEvent "world"]).
Proof.
  split; [exact wf_two_subscribers|]. split; [reflexivity|].
  destruct (late_subscriber_gets_later_frames ["hello"] ["world"] "C"
              two_subscribers) as (σ' & new & Hruns & _ & Hnone & Hreg & Hch);
    [exact wf_two_subscribers|reflexivity|].
  exists σ', new. split; [exact Hruns|]. split; [exact Hnone|].
  split; [exact Hreg|exact Hch].
Defined.

(** X16.  A subscriber that leaves during a run has received the frames
    read before it left and receives none of the later ones.  When
    [Unsubscribe] is called for a registered session after the text frames
    [before] and ahead of the text frames [after], the loop gets through
    all of them, and the channel of the session is closed, unregistered,
    and holds what it held at the start followed by exactly the events of
    [before], in order. *)
Theorem leaving_subscriber_gets_earlier_frames `{RangeOrder}
    before after session c σ :
  wf σ →
  didShutdown (hub σ) = false →
  registered σ session c →
  let sched := (Recv ∘ text_frame <$> before)
                 ++ Call (CallUnsubscribe session)
                 :: (Recv ∘ text_frame <$> after) in
  ∃ σ' ch,
    runs sched σ σ' ∧
    (∀ rest, Dispatch (sched ++ rest) σ = Dispatch rest σ') ∧
    chans σ !! c = Some ch ∧
    chans σ' !! c = Some (mkChan true (delivered ch ++ (mkEvent <$> before))) ∧
    (∀ k, ¬ registered σ' k c).
Proof.
  intros Hwf Hflag Hreg sched.
  destruct (wf_open _ Hwf _ _ Hreg) as (c' & [= <-] & ch & Hch & Hcl).
  destruct (runs_text_frames before σ Hwf Hflag)
    as (σa & Hruns_a & Hhub_a & Hwf_a & _ & Hin_a & _).
  assert (Hflag_a : didShutdown (hub σa) = false) by by rewrite Hhub_a.
  assert (Hreg_a : registered σa session c) by (unfold registered; by rewrite Hhub_a).
  assert (Hch_a : chans σa !! c = Some (receive (mkEvent <$> before) ch)).
  { by rewrite (Hin_a session c Hreg), Hch. }
  pose proof (Unsubscribe_registered session c _ σa Hreg_a Hch_a Hcl) as Hun.
  set (σb := mkProcess _ _ _) in Hun.
  assert (Hwf_b : wf σb).
  { pose proof (wf_Unsubscribe session σa Hwf_a) as Hw. by rewrite Hun in Hw. }
  assert (Hun_b : ∀ k, ¬ registered σb k c).
  { intros k Hk. unfold registered in Hk. simpl in Hk.
    apply lookup_delete_Some in Hk as [Hne Hk].
    apply Hne. by apply (wf_inj _ Hwf_a _ _ c). }
  destruct (runs_text_frames after σb Hwf_b)
    as (σ' & Hruns_b & Hhub_b & _ & _ & _ & Hout_b); [done|].
  assert (Hruns : runs sched σ σ').
  { apply (runs_app _ _ σ σa σ'); [done|].
    by apply (runs_Call _ _ σa σb). }
  exists σ', ch. split; [done|]. split; [by apply runs_Dispatch|].
  split; [done|]. split.
  - rewrite (Hout_b c Hun_b). simpl.
    rewrite list_lookup_insert_eq by (by eapply lookup_lt_Some).
    unfold shut, receive. simpl. done.
  - intros k. unfold registered. rewrite Hhub_b. apply Hun_b.
Qed.

Lemma leaving_subscriber_gets_earlier_frames_witness :
  wf two_subscribers ∧ didShutdown (hub two_subscribers) = false ∧
  registered two_subscribers "B" 1 ∧
  ∃ σ',
    runs [Recv (text_frame "hello"); Call (CallUnsubscribe "B");
          Recv (text_frame "world")] two_subscribers σ' ∧
    chans σ' !! 1 = Some (mkChan true [mkEvent "hello"]) ∧
    (∀ k, ¬ registered σ' k 1).
Proof.
  split; [exact wf_two_subscribers|]. split; [reflexivity|].
  split; [reflexivity|].
  destruct (leaving_subscriber_gets_earlier_frames ["hello"] ["world"] "B" 1
              two_subscribers) as (σ' & ch & Hruns & _ & Hch & Hch' & Hun);
    [exact wf_two_subscribers|reflexivity|reflexivity|].
  injection Hch as <-.
  exists σ'. split; [exact Hruns|]. split; [exact Hch'|exact Hun].
Defined.
